(** * simplelru: a fixed-size LRU cache with lazy expiration

    A shallow embedding of [simplelru/simple_lru.go] and of the part of Go's
    [container/list] it calls, followed by the properties of the cache.

    Conventions of the embedding:
    - a Go pointer to a [list.Element] (together with the [*entry] stored in
      its [Value] field, allocated with it in [AddEx]) is an address in a
      heap; a possibly nil pointer is an [option];
    - [time.Now()] reads a clock: the n-th reading of a run is [clock n], for
      an arbitrary function [clock]; no monotonicity is assumed;
    - the [onEvict] callback is a notification hook: a call to it is recorded
      in the list [evictions] of the world, in call order;
    - Go's [int] is the 64-bit signed integer; the only arithmetic on it that
      can leave the range is the subtraction in [Resize];
    - instants and durations are integers, in nanoseconds, without the
      saturation of [time.Time] at the ends of its range;
    - keys are values of a type that can be hashed (a Go map panics on the
      others); Go compares them with [==], which is not reflexive: a key
      such as a floating-point NaN is unequal to itself, so that the map
      never finds it, never deletes it and stores it anew at each
      assignment;
    - values are of any type, and the nil that [Get], [Peek],
      [RemoveOldest] and [GetOldest] return for a key or a value is
      [None]. *)

From Stdlib Require Import ZArith Lia String.
From stdpp Require Import base option list gmap fin_maps.

(** ** Go values *)

(** [time.Time] and [time.Duration] count nanoseconds; an address is a
    positive number. *)
Abbreviation Time := Z (only parsing).
Abbreviation Duration := Z (only parsing).
Abbreviation ptr := positive (only parsing).

(** Two's complement wrap-around of a 64-bit signed integer. *)
Definition wrap64 (z : Z) : Z := ((z + 2 ^ 63) mod 2 ^ 64 - 2 ^ 63)%Z.

(** ** container/list, seen as the sequence of its elements, front first

    An element belongs to at most this one list, so the test [e.list == l] of
    the library is membership in the sequence.  ([Init] unlinks the elements
    without clearing their [list] field; the cache calls it in [Purge] only,
    after it has dropped every pointer to them.) *)
Module golist.

Definition New : list ptr := [].

Definition Init (l : list ptr) : list ptr := [].

Definition Len (l : list ptr) : Z := Z.of_nat (length l).

Definition Back (l : list ptr) : option ptr := last l.

Definition PushFront (e : ptr) (l : list ptr) : list ptr := e :: l.

Definition inList (e : ptr) (l : list ptr) : bool := bool_decide (e ∈ l).

Definition unlink (e : ptr) (l : list ptr) : list ptr :=
  filter (λ q, q ≠ e) l.

(** [l.Remove(e)] reads [e.list]: a nil [e] is a nil dereference. *)
Definition Remove (e : option ptr) (l : list ptr) : option (list ptr) :=
  match e with
  | None => None
  | Some p => Some (if inList p l then unlink p l else l)
  end.

Definition MoveToFront (e : ptr) (l : list ptr) : list ptr :=
  if negb (inList e l) || bool_decide (head l = Some e) then l
  else e :: unlink e l.

(** [e.Next()]: the element after [e], nil after the last one and for an
    element that is in no list. *)
Fixpoint Next (l : list ptr) (e : ptr) : option ptr :=
  match l with
  | [] => None
  | q :: r => if decide (q = e) then head r else Next r e
  end.

End golist.

(** ** Go's equality on keys

    [selfEq k] tells whether [k == k] holds in Go: it does for every key but
    those that hold a floating-point NaN.  Two keys are equal under [==]
    when they are the same key and that key is equal to itself. *)
Class GoEq (K : Type) := selfEq : K → bool.

Definition goEq {K : Type} `{EqDecision K} `{GoEq K} (k1 k2 : K) : bool :=
  selfEq k1 && bool_decide (k1 = k2).

(** Integers are equal to themselves. *)
Global Instance Z_GoEq : GoEq Z := λ _, true.

(** Keys that hold an integer or the floating-point NaN, the value of
    Go's [math.NaN()] in an [interface{}]: NaN is not equal to itself. *)
Inductive fkey :=
| Num (z : Z)
| NaN.

Global Instance fkey_eq_dec : EqDecision fkey.
Proof. solve_decision. Defined.

Definition fkey_to_option (k : fkey) : option Z :=
  match k with Num z => Some z | NaN => None end.

Definition fkey_of_option (o : option Z) : fkey :=
  match o with Some z => Num z | None => NaN end.

Global Instance fkey_countable : Countable fkey.
Proof.
  refine (inj_countable' fkey_to_option fkey_of_option _). by intros [].
Defined.

Global Instance fkey_GoEq : GoEq fkey :=
  λ k, match k with Num _ => true | NaN => false end.

Section simplelru.

Context {K V : Type} `{Countable K} `{GoEq K}.

(** ** A Go map from keys to element pointers

    The entries whose key is equal to itself are a finite map.  The entries
    whose key is not are kept apart, in the order they were stored: no
    lookup finds them and no [delete] removes them, and a [range] loop
    visits them with the others. *)
Record gomap := GoMap {
  regular : gmap K ptr;
  loose : list (K * ptr);
}.

(** [m[k]] *)
Global Instance gomap_lookup : Lookup K ptr gomap :=
  λ k m, if selfEq k then regular m !! k else None.

(** [m[k] = p] *)
Global Instance gomap_insert : Insert K ptr gomap :=
  λ k p m,
    if selfEq k then GoMap (<[k := p]> (regular m)) (loose m)
    else GoMap (regular m) (loose m ++ [(k, p)]).

(** [delete(m, k)] *)
Global Instance gomap_delete : Delete K gomap :=
  λ k m, if selfEq k then GoMap (delete k (regular m)) (loose m) else m.

(** [make(map[interface{}]*list.Element)] *)
Global Instance gomap_empty : Empty gomap := GoMap ∅ [].

(** [len(m)] *)
Global Instance gomap_size : Size gomap :=
  λ m, size (regular m) + length (loose m).

(** The pairs a [range] loop over the map visits, in some order (Go leaves
    the order unspecified). *)
Definition gomap_range (m : gomap) : list (K * ptr) :=
  map_to_list (regular m) ++ loose m.

(** [clock n] is what the n-th call of [time.Now()] returns. *)
Variable clock : nat → Time.

(** entry is used to hold a value in the evictList *)
Record entry := Entry {
  key : K;
  value : V;
  expire : option Time;
}.

(** LRU implements a non-thread safe fixed size LRU cache.  The field
    [expire] of the Go struct is [c_expire], and [size] is [c_size];
    [onEvict] tells whether the callback is non-nil. *)
Record LRU := mkLRU {
  c_size : Z;
  evictList : list ptr;
  items : gomap;
  c_expire : Duration;
  onEvict : bool;
}.

(** The cache in its surroundings: the elements allocated so far, the next
    free address, the calls made to the callback and the number of clock
    readings taken. *)
Record World := mkWorld {
  cache : LRU;
  heap : gmap ptr entry;
  nextp : ptr;
  evictions : list (K * V);
  ticks : nat;
}.

(** ** The monad of cache operations: state and panics *)

Inductive fault :=
| NilDereference   (* Go: invalid memory address or nil pointer dereference *)
| DanglingPointer  (* an address with no element: impossible in Go *)
| OutOfFuel.       (* a loop of the model ran out of fuel *)

(** A call returns a value, or panics; either way it leaves a world: for a
    panic, the world at the moment of the panic. *)
Inductive result (A : Type) :=
| Ok (a : A) (w : World)
| Abort (f : fault) (w : World).
Global Arguments Ok {A} a w.
Global Arguments Abort {A} f w.

Definition M (A : Type) : Type := World → result A.

Definition ret {A} (a : A) : M A := λ w, Ok a w.

Definition bind {A B} (m : M A) (f : A → M B) : M B :=
  λ w, match m w with
       | Ok a w' => f a w'
       | Abort e w' => Abort e w'
       end.

Definition abort {A} (f : fault) : M A := λ w, Abort f w.

Notation "'let*' x := m 'in' f" := (bind m (λ x, f))
  (at level 10, x name, m at level 100, f at level 200, only parsing).
Notation "m ;; f" := (bind m (λ _, f))
  (at level 100, f at level 200, right associativity, only parsing).

Definition getCache : M LRU := λ w, Ok (cache w) w.

Definition setCache (c : LRU) : M unit :=
  λ w, Ok tt (mkWorld c (heap w) (nextp w) (evictions w) (ticks w)).

Definition setList (l : list ptr) : M unit :=
  let* c := getCache in
  setCache (mkLRU (c_size c) l (items c) (c_expire c) (onEvict c)).

Definition setItems (m : gomap) : M unit :=
  let* c := getCache in
  setCache (mkLRU (c_size c) (evictList c) m (c_expire c) (onEvict c)).

Definition setSize (n : Z) : M unit :=
  let* c := getCache in
  setCache (mkLRU n (evictList c) (items c) (c_expire c) (onEvict c)).

(** [time.Now()] *)
Definition timeNow : M Time :=
  λ w, Ok (clock (ticks w))
          (mkWorld (cache w) (heap w) (nextp w) (evictions w) (S (ticks w))).

(** A non-nil pointer, or the panic of dereferencing nil. *)
Definition nonnil (e : option ptr) : M ptr :=
  match e with
  | Some p => ret p
  | None => abort NilDereference
  end.

(** The type assertion of [ent.Value] to a pointer to an entry, followed
    by a read of the entry. *)
Definition deref (p : ptr) : M entry :=
  λ w, match heap w !! p with
       | Some e => Ok e w
       | None => Abort DanglingPointer w
       end.

Definition store (p : ptr) (e : entry) : M unit :=
  λ w, Ok tt (mkWorld (cache w) (<[p := e]> (heap w)) (nextp w)
                      (evictions w) (ticks w)).

(** Allocation of an element holding a new entry. *)
Definition alloc (e : entry) : M ptr :=
  λ w, Ok (nextp w)
          (mkWorld (cache w) (<[nextp w := e]> (heap w)) (Pos.succ (nextp w))
                   (evictions w) (ticks w)).

(** [if c.onEvict != nil { c.onEvict(k, v) }] *)
Definition callOnEvict (k : K) (v : V) : M unit :=
  λ w, Ok tt (mkWorld (cache w) (heap w) (nextp w)
                      (if onEvict (cache w) then evictions w ++ [(k, v)]
                       else evictions w)
                      (ticks w)).

Fixpoint repeatM (n : nat) (m : M unit) : M unit :=
  match n with
  | O => ret tt
  | S n' => m ;; repeatM n' m
  end.

(** ** The operations of simple_lru.go *)

Definition NewLRUWithExpire (size : Z) (expire : Duration) (onEvict : bool)
  : string + LRU :=
  if (size <=? 0)%Z then inl "Must provide a positive size"%string
  else inr (mkLRU size golist.New ∅ expire onEvict).

(** NewLRU constructs an LRU of the given size *)
Definition NewLRU (size : Z) (onEvict : bool) : string + LRU :=
  NewLRUWithExpire size 0%Z onEvict.

(** The world in which a new cache starts, after [t] clock readings. *)
Definition startWorld (c : LRU) (t : nat) : World :=
  mkWorld c ∅ 1%positive [] t.

Definition IsExpired (e : entry) : M bool :=
  match expire e with
  | None => ret false
  | Some t => let* now := timeNow in ret (t <? now)%Z
  end.

(** removeElement is used to remove a given list element from the cache *)
Definition removeElement (e : option ptr) : M unit :=
  let* c := getCache in
  match golist.Remove e (evictList c) with
  | None => abort NilDereference
  | Some l =>
      setList l ;;
      let* p := nonnil e in
      let* kv := deref p in
      let* c := getCache in
      setItems (delete (key kv) (items c)) ;;
      callOnEvict (key kv) (value kv)
  end.

(** removeOldest removes the oldest item from the cache. *)
Definition removeOldest : M unit :=
  let* c := getCache in
  match golist.Back (evictList c) with
  | Some ent => removeElement (Some ent)
  | None => ret tt
  end.

(** The body of the [range] loop of [Purge], over the pairs of the map.  The
    loop deletes the key it is at, so that it visits every pair once. *)
Fixpoint Purge_loop (kvs : list (K * ptr)) : M unit :=
  match kvs with
  | [] => ret tt
  | (k, v) :: rest =>
      let* c := getCache in
      (if onEvict c then let* e := deref v in callOnEvict k (value e)
       else ret tt) ;;
      let* c := getCache in
      setItems (delete k (items c)) ;;
      Purge_loop rest
  end.

(** Purge is used to completely clear the cache. *)
Definition Purge : M unit :=
  let* c := getCache in
  Purge_loop (gomap_range (items c)) ;;
  let* c := getCache in
  setList (golist.Init (evictList c)).

Definition AddEx (k : K) (v : V) (ttl : Duration) : M bool :=
  let* c := getCache in
  let* ex :=
    (if (0 <? ttl)%Z then
       let* now := timeNow in ret (Some (now + ttl)%Z)
     else if (0 <? c_expire c)%Z then
       let* now := timeNow in ret (Some (now + c_expire c)%Z)
     else ret None) in
  match items c !! k with
  | Some ent =>
      setList (golist.MoveToFront ent (evictList c)) ;;
      let* old := deref ent in
      store ent (Entry (key old) v ex) ;;
      ret false
  | None =>
      let* ent := alloc (Entry k v ex) in
      setList (golist.PushFront ent (evictList c)) ;;
      setItems (<[k := ent]> (items c)) ;;
      let* c := getCache in
      let evict := (c_size c <? golist.Len (evictList c))%Z in
      (if evict then removeOldest else ret tt) ;;
      ret evict
  end.

(** Add adds a value to the cache.  Returns true if an eviction occurred. *)
Definition Add (k : K) (v : V) : M bool := AddEx k v 0%Z.

(** Get looks up a key's value from the cache.  The test [v == nil] of the
    source, after [v.IsExpired()] has read through [v], never succeeds and
    has no counterpart here. *)
Definition Get (k : K) : M (option V * bool) :=
  let* c := getCache in
  match items c !! k with
  | Some ent =>
      let* v := deref ent in
      let* b := IsExpired v in
      if b then ret (None, false)
      else
        setList (golist.MoveToFront ent (evictList c)) ;;
        ret (Some (value v), true)
  | None => ret (None, false)
  end.

(** Contains checks if a key is in the cache, without updating the
    recent-ness or deleting it for being stale. *)
Definition Contains (k : K) : M bool :=
  let* c := getCache in
  match items c !! k with
  | Some ent => let* v := deref ent in let* b := IsExpired v in ret (negb b)
  | None => ret false
  end.

(** Peek returns the key value (or undefined if not found) without updating
    the "recently used"-ness of the key. *)
Definition Peek (k : K) : M (option V * bool) :=
  let* c := getCache in
  match items c !! k with
  | Some ent =>
      let* v := deref ent in
      let* b := IsExpired v in
      if b then ret (None, false) else ret (Some (value v), true)
  | None => ret (None, false)
  end.

(** Remove removes the provided key from the cache, returning if the key
    was contained. *)
Definition Remove (k : K) : M bool :=
  let* c := getCache in
  match items c !! k with
  | Some ent => removeElement (Some ent) ;; ret true
  | None => ret false
  end.

(** One round of the [LOOP] of [RemoveOldest] per unit of fuel. *)
Fixpoint RemoveOldest_loop (fuel : nat) : M (option K * option V * bool) :=
  match fuel with
  | O => abort OutOfFuel
  | S fuel' =>
      let* c := getCache in
      match golist.Back (evictList c) with
      | Some ent =>
          removeElement (Some ent) ;;
          let* kv := deref ent in
          let* b := IsExpired kv in
          if b then RemoveOldest_loop fuel'
          else ret (Some (key kv), Some (value kv), true)
      | None => ret (None, None, false)
      end
  end.

(** RemoveOldest removes the oldest item from the cache. *)
Definition RemoveOldest : M (option K * option V * bool) :=
  λ w, RemoveOldest_loop (S (length (evictList (cache w)))) w.

(** One round of the [LOOP] of [GetOldest] per unit of fuel. *)
Fixpoint GetOldest_loop (fuel : nat) : M (option K * option V * bool) :=
  match fuel with
  | O => abort OutOfFuel
  | S fuel' =>
      let* c := getCache in
      match golist.Back (evictList c) with
      | Some ent =>
          let* kv := deref ent in
          let* b := IsExpired kv in
          if b then
            removeElement (golist.Next (evictList c) ent) ;;
            GetOldest_loop fuel'
          else ret (Some (key kv), Some (value kv), true)
      | None => ret (None, None, false)
      end
  end.

(** GetOldest returns the oldest entry *)
Definition GetOldest : M (option K * option V * bool) :=
  λ w, GetOldest_loop (S (length (evictList (cache w)))) w.

(** The loop of [Keys] follows [Prev] from the back: it visits the
    elements in reverse order and does not change the list. *)
Fixpoint Keys_loop (ents : list ptr) (keys : list K) : M (list K) :=
  match ents with
  | [] => ret keys
  | ent :: rest =>
      let* v := deref ent in
      let* b := IsExpired v in
      Keys_loop rest (if b then keys else keys ++ [key v])
  end.

(** Keys returns a slice of the keys in the cache, from oldest to newest. *)
Definition Keys : M (list K) :=
  let* c := getCache in
  Keys_loop (reverse (evictList c)) [].

(** Len returns the number of items in the cache. *)
Definition Len : M Z :=
  let* c := getCache in
  ret (golist.Len (evictList c)).

(** Resize changes the cache size. *)
Definition Resize (size : Z) : M Z :=
  let* n := Len in
  let diff := wrap64 (n - size) in
  let diff := if (diff <? 0)%Z then 0%Z else diff in
  repeatM (Z.to_nat diff) removeOldest ;;
  setSize size ;;
  ret diff.

(** ** Notions used to state the properties *)

(** The world after one more clock reading. *)
Definition tick (w : World) : World :=
  mkWorld (cache w) (heap w) (nextp w) (evictions w) (S (ticks w)).

(** The test of [IsExpired] against a given reading of the clock. *)
Definition expiredAt (e : entry) (now : Time) : bool :=
  match expire e with
  | None => false
  | Some t => (t <? now)%Z
  end.

(** [IsExpired] reads the clock only for an entry that has a deadline. *)
Definition afterCheck (e : entry) (w : World) : World :=
  match expire e with
  | None => w
  | Some _ => tick w
  end.

(** What [Len] returns in a world. *)
Definition lenOf (w : World) : Z := golist.Len (evictList (cache w)).

(** The calls of the callback for a sequence of removed entries. *)
Definition notified (c : LRU) (es : list entry) : list (K * V) :=
  if onEvict c then (λ e, (key e, value e)) <$> es else [].

(** The effective expiration in the words of the specification: the instant
    [now] plus [ttl] when [ttl] is positive, else plus the default [dflt]
    of the cache when that is positive, else none.  [expiryOf] is its value
    in a world, and [afterExpiry] the world after the clock reading that
    [AddEx] takes when there is a deadline to compute. *)
Definition effectiveExpire (ttl dflt : Duration) (now : Time) : option Time :=
  if (0 <? ttl)%Z then Some (now + ttl)%Z
  else if (0 <? dflt)%Z then Some (now + dflt)%Z
  else None.

Definition expiryOf (ttl : Duration) (w : World) : option Time :=
  effectiveExpire ttl (c_expire (cache w)) (clock (ticks w)).

Definition afterExpiry (ttl : Duration) (w : World) : World :=
  if (0 <? ttl)%Z || (0 <? c_expire (cache w))%Z then tick w else w.

(** The world after [AddEx] has updated the entry [old] of element [p]. *)
Definition updated (v : V) (ttl : Duration) (p : ptr) (old : entry)
    (w : World) : World :=
  mkWorld (mkLRU (c_size (cache w))
                 (golist.MoveToFront p (evictList (cache w)))
                 (items (cache w)) (c_expire (cache w)) (onEvict (cache w)))
          (<[p := Entry (key old) v (expiryOf ttl w)]> (heap w))
          (nextp w) (evictions w) (ticks (afterExpiry ttl w)).

(** The world after [AddEx] has pushed a new entry, before it looks at the
    size. *)
Definition inserted (k : K) (v : V) (ttl : Duration) (w : World) : World :=
  mkWorld (mkLRU (c_size (cache w))
                 (golist.PushFront (nextp w) (evictList (cache w)))
                 (<[k := nextp w]> (items (cache w)))
                 (c_expire (cache w)) (onEvict (cache w)))
          (<[nextp w := Entry k v (expiryOf ttl w)]> (heap w))
          (Pos.succ (nextp w)) (evictions w) (ticks (afterExpiry ttl w)).

(** The world after element [p], holding entry [e], left the cache. *)
Definition without (p : ptr) (e : entry) (w : World) : World :=
  mkWorld (mkLRU (c_size (cache w)) (golist.unlink p (evictList (cache w)))
                 (delete (key e) (items (cache w)))
                 (c_expire (cache w)) (onEvict (cache w)))
          (heap w) (nextp w)
          (evictions w ++ notified (cache w) [e])
          (ticks w).

(** The map holds a pair of key [k] and element [p]: where a lookup finds
    it when the key is equal to itself, among the other pairs when it is
    not. *)
Definition storedAt (m : gomap) (k : K) (p : ptr) : Prop :=
  if selfEq k then m !! k = Some p else (k, p) ∈ loose m.

(** Well-formed worlds: the list has no repeated element, every element
    of the list is allocated and stored in the index under the key of its
    entry, every element a lookup finds is in the list under its key, the
    allocator has never handed out an address from [nextp] on, and the two
    parts of the index hold the keys they are for, with allocated
    elements. *)
Record Inv (w : World) : Prop := mkInv {
  inv_nodup : NoDup (evictList (cache w));
  inv_list : ∀ p, p ∈ evictList (cache w) →
    ∃ e, heap w !! p = Some e ∧ storedAt (items (cache w)) (key e) p;
  inv_items : ∀ k p, items (cache w) !! k = Some p →
    p ∈ evictList (cache w) ∧ ∃ e, heap w !! p = Some e ∧ key e = k;
  inv_alloc : ∀ p, is_Some (heap w !! p) → (p < nextp w)%positive;
  inv_regular : ∀ k p, regular (items (cache w)) !! k = Some p →
    selfEq k = true;
  inv_loose : ∀ k p, (k, p) ∈ loose (items (cache w)) →
    selfEq k = false ∧ ∃ e, heap w !! p = Some e ∧ key e = k;
}.

(** The public operations, and a call of one with its results dropped. *)
Inductive op :=
| OpAdd (k : K) (v : V)
| OpAddEx (k : K) (v : V) (ttl : Duration)
| OpGet (k : K)
| OpContains (k : K)
| OpPeek (k : K)
| OpRemove (k : K)
| OpRemoveOldest
| OpGetOldest
| OpKeys
| OpLen
| OpResize (size : Z)
| OpPurge.

Definition exec (o : op) : M unit :=
  match o with
  | OpAdd k v => Add k v ;; ret tt
  | OpAddEx k v ttl => AddEx k v ttl ;; ret tt
  | OpGet k => Get k ;; ret tt
  | OpContains k => Contains k ;; ret tt
  | OpPeek k => Peek k ;; ret tt
  | OpRemove k => Remove k ;; ret tt
  | OpRemoveOldest => RemoveOldest ;; ret tt
  | OpGetOldest => GetOldest ;; ret tt
  | OpKeys => Keys ;; ret tt
  | OpLen => Len ;; ret tt
  | OpResize size => Resize size ;; ret tt
  | OpPurge => Purge
  end.

Fixpoint run (ops : list op) : M unit :=
  match ops with
  | [] => ret tt
  | o :: rest => exec o ;; run rest
  end.

(** The world a call leaves, whether it returned or panicked. *)
Definition worldOf {A} (r : result A) : World :=
  match r with
  | Ok _ w => w
  | Abort _ w => w
  end.

(** The worlds a cache built by the constructor can be observed in: the
    world it starts in, and the world left by a public operation called in
    such a world (after a panic, the world a caller that recovers sees). *)
Inductive reachable : World → Prop :=
| reach_new (size : Z) (dflt : Duration) (cb : bool) (c : LRU) (t : nat) :
    NewLRUWithExpire size dflt cb = inr c → reachable (startWorld c t)
| reach_call (o : op) (w : World) :
    reachable w → reachable (worldOf (exec o w)).

Definition isPut (o : op) : bool :=
  match o with
  | OpAdd _ _ | OpAddEx _ _ _ => true
  | _ => false
  end.

(** The world after [removeOldest]. *)
Definition dropBack (w : World) : World :=
  match golist.Back (evictList (cache w)) with
  | Some p =>
      match heap w !! p with
      | Some e => without p e w
      | None => w
      end
  | None => w
  end.

(** The entries held by a sequence of elements. *)
Definition entriesOf (w : World) (ps : list ptr) : list entry :=
  omap (λ p, heap w !! p) ps.

(** The world after element [p] was moved to the front. *)
Definition promoted (p : ptr) (w : World) : World :=
  mkWorld (mkLRU (c_size (cache w))
                 (golist.MoveToFront p (evictList (cache w)))
                 (items (cache w)) (c_expire (cache w)) (onEvict (cache w)))
          (heap w) (nextp w) (evictions w) (ticks w).

(** Two worlds that differ at most in the number of clock readings. *)
Definition sameButClock (w w' : World) : Prop :=
  cache w' = cache w ∧ heap w' = heap w ∧ nextp w' = nextp w ∧
  evictions w' = evictions w.

(** [w'] is [w] after the elements [gone] were removed from the back of
    the list, one after the other from the back: the list keeps [kept],
    a lookup in the index finds the kept elements and no other, the
    callback was called for every removed entry, the back one first, and
    the pairs of the index whose key is unequal to itself are all still
    there. *)
Definition removedFromBack (w w' : World) (kept gone : list ptr) : Prop :=
  evictList (cache w) = kept ++ gone ∧
  evictList (cache w') = kept ∧
  (∀ k p, items (cache w') !! k = Some p ↔
          items (cache w) !! k = Some p ∧ p ∈ kept) ∧
  heap w' = heap w ∧
  nextp w' = nextp w ∧
  evictions w' =
    evictions w ++ notified (cache w) (entriesOf w (reverse gone)) ∧
  c_size (cache w') = c_size (cache w) ∧
  c_expire (cache w') = c_expire (cache w) ∧
  onEvict (cache w') = onEvict (cache w) ∧
  loose (items (cache w')) = loose (items (cache w)).

(** The elements of [gone] held expired entries when [RemoveOldest]
    examined them: the j-th from the back is examined with the j-th clock
    reading taken from world [w] on. *)
Definition expiredRun (w : World) (gone : list ptr) : Prop :=
  ∀ j q, reverse gone !! j = Some q →
    ∃ e, heap w !! q = Some e ∧ expiredAt e (clock (ticks w + j)) = true.

(** The two ways [RemoveOldest] ends.  Either the front-most element [p]
    of [gone] held an entry that was not expired when examined, after all
    of [gone] behind it were found expired, and that entry is returned; or
    the whole list is gone, every element found expired, and nothing is
    returned. *)
Definition returnedFresh (w : World) (gone : list ptr)
    (res : option K * option V * bool) : Prop :=
  ∃ p e gone',
    gone = p :: gone' ∧ heap w !! p = Some e ∧
    res = (Some (key e), Some (value e), true) ∧
    expiredAt e (clock (ticks w + length gone')) = false ∧
    expiredRun w gone'.

Definition returnedNothing (w : World) (kept gone : list ptr)
    (res : option K * option V * bool) : Prop :=
  kept = [] ∧ res = (None, None, false) ∧ expiredRun w gone.

(** The world with the size field of the cache set. *)
Definition withSize (size : Z) (w : World) : World :=
  mkWorld (mkLRU size (evictList (cache w)) (items (cache w))
                 (c_expire (cache w)) (onEvict (cache w)))
          (heap w) (nextp w) (evictions w) (ticks w).

(** The key and value of the entries held by a sequence of elements. *)
Definition pairsOf (w : World) (ps : list ptr) : list (K * V) :=
  (λ e, (key e, value e)) <$> entriesOf w ps.

(** A sequence of [Add] calls, one per pair. *)
Definition addAll (kvs : list (K * V)) : list op :=
  (λ kv, OpAdd kv.1 kv.2) <$> kvs.

(** The world after a sequence of calls, each started in the world the one
    before left, whether it returned or panicked. *)
Definition after (ops : list op) (w : World) : World :=
  foldl (λ w o, worldOf (exec o w)) w ops.

(** The requested size of a [Resize] call is a Go [int] that is not
    negative. *)
Definition sizeInRange (o : op) : bool :=
  match o with
  | OpResize size => (0 <=? size)%Z && (size <? 2 ^ 63)%Z
  | _ => true
  end.

(** A well-formed world whose list is within the size of the cache, the
    size being a Go [int]. *)
Definition within (w : World) : Prop :=
  Inv w ∧ (lenOf w ≤ c_size (cache w) < 2 ^ 63)%Z.

(** The state of a cache of size [n] into which the pairs [kvs], of
    distinct keys, were added in order and nothing else was done: the list
    holds the last [n] pairs, the newest at the front, and the callback was
    called for the pairs before them, in the order they were added. *)
Definition holdsNewest (n : nat) (cb : bool) (kvs : list (K * V))
    (w : World) : Prop :=
  Inv w ∧ c_size (cache w) = Z.of_nat n ∧ onEvict (cache w) = cb ∧
  pairsOf w (evictList (cache w)) = reverse (drop (length kvs - n) kvs) ∧
  evictions w = (if cb then take (length kvs - n) kvs else []).

(** No two keys of the list are equal under Go's [==]. *)
Fixpoint goDistinct (ks : list K) : Prop :=
  match ks with
  | [] => True
  | k :: ks' => (∀ k', k' ∈ ks' → goEq k k' = false) ∧ goDistinct ks'
  end.

(** ** Facts on the list library *)

Lemma elem_of_unlink (p q : ptr) (l : list ptr) :
  q ∈ golist.unlink p l ↔ q ∈ l ∧ q ≠ p.
Proof. unfold golist.unlink. rewrite list_elem_of_filter. tauto. Qed.

Lemma unlink_cons (p q : ptr) (l : list ptr) :
  golist.unlink p (q :: l) =
  if decide (q = p) then golist.unlink p l else q :: golist.unlink p l.
Proof.
  unfold golist.unlink. rewrite filter_cons.
  destruct (decide (q = p)) as [->|Hne].
  - destruct (decide (p ≠ p)); [congruence|done].
  - destruct (decide (q ≠ p)); [done|tauto].
Qed.

Lemma unlink_absent (p : ptr) (l : list ptr) :
  p ∉ l → golist.unlink p l = l.
Proof.
  induction l as [|q l IH]; [done|]. intros Hp.
  apply not_elem_of_cons in Hp as [Hne Hl]. rewrite unlink_cons.
  destruct (decide (q = p)); [congruence|]. by rewrite IH.
Qed.

Lemma NoDup_unlink (p : ptr) (l : list ptr) :
  NoDup l → NoDup (golist.unlink p l).
Proof. apply NoDup_filter. Qed.

Lemma unlink_app (p : ptr) (l1 l2 : list ptr) :
  golist.unlink p (l1 ++ l2) = golist.unlink p l1 ++ golist.unlink p l2.
Proof. apply filter_app. Qed.

Lemma unlink_front (p : ptr) (l : list ptr) :
  p ∉ l → golist.unlink p (p :: l) = l.
Proof.
  intros Hp. rewrite unlink_cons.
  destruct (decide (p = p)); [|congruence]. by apply unlink_absent.
Qed.

Lemma unlink_back (p : ptr) (l : list ptr) :
  NoDup (l ++ [p]) → golist.unlink p (l ++ [p]) = l.
Proof.
  intros Hnd. apply NoDup_app in Hnd as (_ & Hdis & _).
  rewrite unlink_app, unlink_absent.
  - rewrite unlink_front by apply not_elem_of_nil. apply app_nil_r.
  - intros Hin. apply (Hdis p Hin). apply list_elem_of_here.
Qed.

Lemma length_unlink (p : ptr) (l : list ptr) :
  NoDup l → p ∈ l → S (length (golist.unlink p l)) = length l.
Proof.
  induction l as [|q l IH]; intros Hnd Hin.
  - by apply elem_of_nil in Hin.
  - apply NoDup_cons in Hnd as [Hq Hnd].
    destruct (decide (q = p)) as [->|Hne].
    + by rewrite unlink_front.
    + apply elem_of_cons in Hin as [?|Hin]; [congruence|].
      rewrite unlink_cons. destruct (decide (q = p)); [congruence|].
      simpl. by rewrite IH.
Qed.

Lemma Remove_elem (p : ptr) (l : list ptr) :
  golist.Remove (Some p) l = Some (golist.unlink p l).
Proof.
  unfold golist.Remove, golist.inList. case_bool_decide; [done|].
  by rewrite unlink_absent.
Qed.

Lemma Back_snoc (p : ptr) (l : list ptr) : golist.Back (l ++ [p]) = Some p.
Proof. apply last_snoc. Qed.

Lemma Back_inv (l : list ptr) :
  match golist.Back l with
  | Some p => ∃ l', l = l' ++ [p]
  | None => l = []
  end.
Proof.
  destruct l as [|q l] using rev_ind; [done|].
  rewrite Back_snoc. by exists l.
Qed.

Lemma Next_absent (p : ptr) (l : list ptr) : p ∉ l → golist.Next l p = None.
Proof.
  induction l as [|q l IH]; [done|]. intros Hp.
  apply not_elem_of_cons in Hp as [Hne Hl]. simpl.
  destruct (decide (q = p)); [congruence|auto].
Qed.

(** The back element of a list has no next element. *)
Lemma Next_back (p : ptr) (l : list ptr) :
  NoDup (l ++ [p]) → golist.Next (l ++ [p]) p = None.
Proof.
  induction l as [|q l IH]; intros Hnd; simpl.
  - destruct (decide (p = p)); [done|congruence].
  - apply NoDup_cons in Hnd as [Hq Hnd].
    destruct (decide (q = p)) as [->|Hne]; [|auto].
    exfalso. apply Hq. apply elem_of_app. right. apply list_elem_of_here.
Qed.

Lemma MoveToFront_elem (p : ptr) (l : list ptr) :
  NoDup l → p ∈ l → golist.MoveToFront p l = p :: golist.unlink p l.
Proof.
  intros Hnd Hin. unfold golist.MoveToFront, golist.inList.
  rewrite bool_decide_eq_true_2 by done. simpl.
  case_bool_decide as Hhd; [|done].
  destruct l as [|q l]; [done|]. simpl in Hhd. injection Hhd as ->.
  apply NoDup_cons in Hnd as [Hp _]. by rewrite unlink_front.
Qed.

Lemma MoveToFront_perm (p : ptr) (l : list ptr) :
  NoDup l → golist.MoveToFront p l ≡ₚ l.
Proof.
  intros Hnd. destruct (decide (p ∈ l)) as [Hin|Hnin].
  - rewrite MoveToFront_elem by done.
    apply NoDup_Permutation; [|done|].
    + apply NoDup_cons. split; [|by apply NoDup_unlink].
      rewrite elem_of_unlink. tauto.
    + intros q. rewrite elem_of_cons, elem_of_unlink.
      destruct (decide (q = p)) as [->|]; tauto.
  - unfold golist.MoveToFront, golist.inList.
    by rewrite bool_decide_eq_false_2.
Qed.

(** ** Facts on Go maps *)

Lemma golookup_Some (m : gomap) (k : K) (p : ptr) :
  m !! k = Some p ↔ selfEq k = true ∧ regular m !! k = Some p.
Proof.
  unfold lookup at 1, gomap_lookup. destruct (selfEq k).
  - split; [done|by intros [_ ?]].
  - split; [done|by intros [? _]].
Qed.

Lemma golookup_self (m : gomap) (k : K) (p : ptr) :
  m !! k = Some p → selfEq k = true.
Proof. by intros [? _]%golookup_Some. Qed.

Lemma golookup_unequal (m : gomap) (k : K) : selfEq k = false → m !! k = None.
Proof. unfold lookup, gomap_lookup. by intros ->. Qed.

Lemma golookup_empty (k : K) : (∅ : gomap) !! k = None.
Proof.
  unfold lookup, gomap_lookup. destruct (selfEq k); [|done].
  apply lookup_empty.
Qed.

Lemma golookup_insert_eq (m : gomap) (k : K) (p : ptr) :
  selfEq k = true → <[k := p]> m !! k = Some p.
Proof.
  intros Hk. unfold insert, gomap_insert, lookup at 1, gomap_lookup.
  rewrite Hk. simpl. apply lookup_insert_eq.
Qed.

Lemma golookup_insert_ne (m : gomap) (k k' : K) (p : ptr) :
  k ≠ k' → <[k := p]> m !! k' = m !! k'.
Proof.
  intros Hne. unfold insert, gomap_insert, lookup, gomap_lookup.
  destruct (selfEq k), (selfEq k'); simpl; try done.
  by apply lookup_insert_ne.
Qed.

Lemma golookup_insert_unequal (m : gomap) (k k' : K) (p : ptr) :
  selfEq k = false → <[k := p]> m !! k' = m !! k'.
Proof.
  intros Hk. unfold insert, gomap_insert, lookup, gomap_lookup.
  by rewrite Hk.
Qed.

Lemma golookup_delete_Some (m : gomap) (k k' : K) (p : ptr) :
  delete k m !! k' = Some p ↔ k ≠ k' ∧ m !! k' = Some p.
Proof.
  unfold delete, gomap_delete, lookup, gomap_lookup.
  destruct (selfEq k) eqn:Hk, (selfEq k') eqn:Hk'; simpl.
  - apply lookup_delete_Some.
  - split; [done|by intros [_ ?]].
  - split; [|by intros [_ ?]]. intros Hlk. split; [congruence|done].
  - split; [done|by intros [_ ?]].
Qed.

Lemma golookup_delete_eq (m : gomap) (k : K) : delete k m !! k = None.
Proof.
  destruct (delete k m !! k) as [p|] eqn:Hlk; [|done].
  by apply golookup_delete_Some in Hlk as [? _].
Qed.

Lemma golookup_delete_ne (m : gomap) (k k' : K) :
  k ≠ k' → delete k m !! k' = m !! k'.
Proof.
  intros Hne. apply option_eq. intros p. rewrite golookup_delete_Some.
  tauto.
Qed.

Lemma goloose_insert (m : gomap) (k : K) (p : ptr) :
  loose (<[k := p]> m) =
  if selfEq k then loose m else loose m ++ [(k, p)].
Proof. unfold insert, gomap_insert. by destruct (selfEq k). Qed.

Lemma goloose_delete (m : gomap) (k : K) : loose (delete k m) = loose m.
Proof. unfold delete, gomap_delete. by destruct (selfEq k). Qed.

Lemma goregular_insert (m : gomap) (k : K) (p : ptr) :
  regular (<[k := p]> m) =
  if selfEq k then <[k := p]> (regular m) else regular m.
Proof. unfold insert, gomap_insert. by destruct (selfEq k). Qed.

Lemma goregular_delete (m : gomap) (k : K) :
  regular (delete k m) =
  if selfEq k then delete k (regular m) else regular m.
Proof. unfold delete, gomap_delete. by destruct (selfEq k). Qed.

Lemma storedAt_lookup (m : gomap) (k : K) (p : ptr) :
  selfEq k = true → storedAt m k p → m !! k = Some p.
Proof. unfold storedAt. by intros ->. Qed.

Lemma storedAt_loose (m : gomap) (k : K) (p : ptr) :
  selfEq k = false → storedAt m k p → (k, p) ∈ loose m.
Proof. unfold storedAt. by intros ->. Qed.

Lemma storedAt_delete_ne (m : gomap) (k k' : K) (p : ptr) :
  k ≠ k' → storedAt m k' p → storedAt (delete k m) k' p.
Proof.
  unfold storedAt. intros Hne. destruct (selfEq k').
  - by rewrite golookup_delete_ne.
  - by rewrite goloose_delete.
Qed.

Lemma storedAt_delete_unequal (m : gomap) (k k' : K) (p : ptr) :
  selfEq k = false → storedAt m k' p → storedAt (delete k m) k' p.
Proof. intros Hk. unfold delete, gomap_delete. by rewrite Hk. Qed.

Lemma storedAt_insert_eq (m : gomap) (k : K) (p : ptr) :
  storedAt (<[k := p]> m) k p.
Proof.
  unfold storedAt. destruct (selfEq k) eqn:Hk.
  - by apply golookup_insert_eq.
  - rewrite goloose_insert, Hk. apply elem_of_app. right.
    apply list_elem_of_here.
Qed.

Lemma storedAt_insert_ne (m : gomap) (k k' : K) (p p' : ptr) :
  k ≠ k' → storedAt m k' p' → storedAt (<[k := p]> m) k' p'.
Proof.
  unfold storedAt. intros Hne. destruct (selfEq k').
  - by rewrite golookup_insert_ne.
  - rewrite goloose_insert. destruct (selfEq k); [done|].
    intros Hin. apply elem_of_app. by left.
Qed.

Lemma storedAt_insert_unequal (m : gomap) (k k' : K) (p p' : ptr) :
  selfEq k = false → storedAt m k' p' → storedAt (<[k := p]> m) k' p'.
Proof.
  unfold storedAt. intros Hk. destruct (selfEq k').
  - by rewrite golookup_insert_unequal.
  - rewrite goloose_insert, Hk. intros Hin. apply elem_of_app. by left.
Qed.

Lemma goEq_true (k1 k2 : K) : goEq k1 k2 = true ↔ selfEq k1 = true ∧ k1 = k2.
Proof.
  unfold goEq. rewrite andb_true_iff, bool_decide_eq_true. done.
Qed.

Lemma goEq_false (k1 k2 : K) :
  goEq k1 k2 = false ↔ selfEq k1 = false ∨ k1 ≠ k2.
Proof.
  unfold goEq. rewrite andb_false_iff, bool_decide_eq_false. done.
Qed.

Lemma goDistinct_sublist (ks1 ks2 : list K) :
  ks1 `sublist_of` ks2 → goDistinct ks2 → goDistinct ks1.
Proof.
  induction 1 as [|k l1 l2 Hsub IH|k l1 l2 Hsub IH]; simpl; [done|..].
  - intros [Hk Hd]. split; [|by apply IH].
    intros k' Hk'. apply Hk. by eapply elem_of_sublist.
  - intros [_ Hd]. by apply IH.
Qed.

(** Keys that are all equal to themselves and distinct under [==] are
    distinct. *)
Lemma goDistinct_NoDup (ks : list K) :
  (∀ k, k ∈ ks → selfEq k = true) → goDistinct ks → NoDup ks.
Proof.
  induction ks as [|k ks IH]; simpl; intros Hself Hd; [constructor|].
  destruct Hd as [Hk Hd]. apply NoDup_cons. split.
  - intros Hin. apply Hk in Hin. apply goEq_false in Hin as [Hs|Hne]; [|done].
    rewrite Hself in Hs; [done|apply list_elem_of_here].
  - apply IH; [|done]. intros k' Hk'. apply Hself.
    by apply list_elem_of_further.
Qed.

Lemma NoDup_goDistinct (ks : list K) : NoDup ks → goDistinct ks.
Proof.
  induction 1 as [|k ks Hk Hnd IH]; simpl; [done|]. split; [|done].
  intros k' Hk'. apply goEq_false. right. by intros ->.
Qed.

Lemma gosize_eq (m : gomap) : size m = size (regular m) + length (loose m).
Proof. done. Qed.

Lemma gosize_delete (m : gomap) (k : K) (p : ptr) :
  m !! k = Some p → size (delete k m) = pred (size m).
Proof.
  intros [Hs Hk]%golookup_Some.
  rewrite !gosize_eq, goregular_delete, goloose_delete, Hs.
  rewrite map_size_delete_Some by eauto.
  assert (size (regular m) ≠ 0) by (eapply map_size_ne_0_lookup_2; eauto).
  lia.
Qed.

Lemma storedAt_range (m : gomap) (k : K) (p : ptr) :
  storedAt m k p → (k, p) ∈ gomap_range m.
Proof.
  unfold storedAt, gomap_range. intros Hst. apply elem_of_app.
  destruct (selfEq k) eqn:Hk.
  - left. apply elem_of_map_to_list. by apply golookup_Some in Hst as [_ ?].
  - by right.
Qed.

(** ** The primitive steps *)

Lemma IsExpired_eq (e : entry) (w : World) :
  IsExpired e w = Ok (expiredAt e (clock (ticks w))) (afterCheck e w).
Proof. unfold IsExpired, expiredAt, afterCheck. by destruct (expire e). Qed.

Lemma afterCheck_cache (e : entry) (w : World) :
  cache (afterCheck e w) = cache w.
Proof. unfold afterCheck. by destruct (expire e). Qed.

Lemma afterCheck_heap (e : entry) (w : World) :
  heap (afterCheck e w) = heap w.
Proof. unfold afterCheck. by destruct (expire e). Qed.

Lemma afterCheck_evictions (e : entry) (w : World) :
  evictions (afterCheck e w) = evictions w.
Proof. unfold afterCheck. by destruct (expire e). Qed.

Lemma Inv_same (w w' : World) :
  cache w' = cache w → heap w' = heap w → nextp w' = nextp w →
  Inv w → Inv w'.
Proof.
  intros Hc Hh Hn [Hnd Hl Hi Ha Hreg Hloose].
  split; rewrite ?Hc, ?Hh, ?Hn; assumption.
Qed.

Lemma Inv_afterCheck (e : entry) (w : World) : Inv w → Inv (afterCheck e w).
Proof. unfold afterCheck. destruct (expire e); [|done]. by apply Inv_same. Qed.

Lemma removeElement_nil (w : World) :
  removeElement None w = Abort NilDereference w.
Proof. reflexivity. Qed.

Lemma removeElement_eq (p : ptr) (e : entry) (w : World) :
  heap w !! p = Some e → removeElement (Some p) w = Ok tt (without p e w).
Proof.
  intros Hp. unfold removeElement, bind, getCache. rewrite Remove_elem.
  unfold setList, setItems, setCache, nonnil, ret, deref, bind, getCache,
    callOnEvict, without, notified.
  simpl. rewrite Hp. simpl.
  destruct (onEvict (cache w)); simpl; [done|by rewrite app_nil_r].
Qed.

Lemma Inv_without (p : ptr) (e : entry) (w : World) :
  Inv w → p ∈ evictList (cache w) → heap w !! p = Some e →
  Inv (without p e w).
Proof.
  intros [Hnd Hl Hi Ha Hreg Hloose] Hin Hp.
  destruct (Hl p Hin) as (e0 & He0 & Hk). rewrite Hp in He0.
  injection He0 as <-.
  split; simpl.
  - by apply NoDup_unlink.
  - intros q [Hq Hne]%elem_of_unlink.
    destruct (Hl q Hq) as (eq & Heq & Hkq). exists eq. split; [done|].
    destruct (selfEq (key e)) eqn:Hself;
      [|by apply storedAt_delete_unequal].
    apply storedAt_delete_ne; [|done]. intros Hkk.
    rewrite <- Hkk in Hkq.
    apply storedAt_lookup in Hk, Hkq; congruence.
  - intros k q Hlk.
    apply golookup_delete_Some in Hlk as [Hne Hlk].
    destruct (Hi k q Hlk) as (Hq & eq & Heq & Hkq).
    split; [|by exists eq].
    apply elem_of_unlink. split; [done|].
    intros ->. congruence.
  - done.
  - intros k q. rewrite goregular_delete.
    destruct (selfEq (key e)); [|by apply Hreg].
    intros [_ Hlk]%lookup_delete_Some. by eapply Hreg.
  - intros k q. rewrite goloose_delete. by apply Hloose.
Qed.

Lemma removeOldest_eq (w : World) :
  Inv w → removeOldest w = Ok tt (dropBack w).
Proof.
  intros Hinv. unfold removeOldest, dropBack, bind, getCache.
  pose proof (Back_inv (evictList (cache w))) as Hb.
  destruct (golist.Back (evictList (cache w))) as [p|]; [|done].
  destruct Hb as [l' Hl'].
  destruct (inv_list w Hinv p) as (e & He & _).
  { rewrite Hl'. apply elem_of_app. right. apply list_elem_of_here. }
  rewrite He. by apply removeElement_eq.
Qed.

Lemma Inv_dropBack (w : World) : Inv w → Inv (dropBack w).
Proof.
  intros Hinv. unfold dropBack.
  pose proof (Back_inv (evictList (cache w))) as Hb.
  destruct (golist.Back (evictList (cache w))) as [p|]; [|done].
  destruct Hb as [l' Hl'].
  destruct (heap w !! p) as [e|] eqn:He; [|done].
  apply Inv_without; [done| |done].
  rewrite Hl'. apply elem_of_app. right. apply list_elem_of_here.
Qed.

(** [removeOldest] on a list with back element [p]. *)
Lemma dropBack_snoc (w : World) (l : list ptr) (p : ptr) (e : entry) :
  Inv w → evictList (cache w) = l ++ [p] → heap w !! p = Some e →
  dropBack w = without p e w ∧ evictList (cache (without p e w)) = l.
Proof.
  intros Hinv Hl He. unfold dropBack. rewrite Hl, Back_snoc, He.
  split; [done|]. simpl. rewrite Hl. apply unlink_back.
  rewrite <- Hl. apply Hinv.
Qed.

Lemma dropBack_nil (w : World) : evictList (cache w) = [] → dropBack w = w.
Proof. intros Hl. unfold dropBack. by rewrite Hl. Qed.

(** ** AddEx *)

Lemma AddEx_update_eq (k : K) (v : V) (ttl : Duration) (p : ptr)
    (old : entry) (w : World) :
  items (cache w) !! k = Some p → heap w !! p = Some old →
  AddEx k v ttl w = Ok false (updated v ttl p old w).
Proof.
  intros Hk Hp. unfold AddEx, updated, expiryOf, effectiveExpire, afterExpiry.
  unfold bind at 1. unfold getCache at 1. unfold bind at 1.
  destruct (0 <? ttl)%Z; simpl.
  - rewrite Hk. unfold bind, setList, getCache, setCache, deref, store, ret.
    simpl. by rewrite Hp.
  - destruct (0 <? c_expire (cache w))%Z; simpl;
      rewrite Hk; unfold bind, setList, getCache, setCache, deref, store, ret;
      simpl; by rewrite Hp.
Qed.

Lemma AddEx_insert_eq (k : K) (v : V) (ttl : Duration) (w : World) :
  items (cache w) !! k = None →
  AddEx k v ttl w =
  if (c_size (cache w) <? golist.Len (nextp w :: evictList (cache w)))%Z
  then (removeOldest ;; ret true) (inserted k v ttl w)
  else Ok false (inserted k v ttl w).
Proof.
  intros Hk. unfold AddEx, inserted, expiryOf, effectiveExpire, afterExpiry.
  unfold bind at 1. unfold getCache at 1. unfold bind at 1.
  destruct (0 <? ttl)%Z; simpl.
  - rewrite Hk.
    unfold bind at 1. unfold alloc at 1. simpl.
    unfold bind at 1. unfold setList, bind, getCache, setCache. simpl.
    unfold setItems, bind, getCache, setCache, golist.PushFront. simpl.
    by destruct (c_size (cache w) <? _)%Z.
  - destruct (0 <? c_expire (cache w))%Z; simpl; rewrite Hk.
    + unfold bind at 1. unfold alloc at 1. simpl.
      unfold bind at 1. unfold setList, bind, getCache, setCache. simpl.
      unfold setItems, bind, getCache, setCache, golist.PushFront. simpl.
      by destruct (c_size (cache w) <? _)%Z.
    + unfold bind at 1. unfold ret at 1. unfold alloc at 1. simpl.
      unfold bind at 1. unfold setList, bind, getCache, setCache. simpl.
      unfold setItems, bind, getCache, setCache, golist.PushFront. simpl.
      by destruct (c_size (cache w) <? _)%Z.
Qed.

Lemma Inv_key (w : World) (k : K) (p : ptr) (e : entry) :
  Inv w → items (cache w) !! k = Some p → heap w !! p = Some e → key e = k.
Proof.
  intros Hinv Hk Hp. destruct (inv_items w Hinv k p Hk) as (_ & e' & He' & <-).
  congruence.
Qed.

Lemma Inv_indexed (w : World) (k : K) (p : ptr) :
  Inv w → items (cache w) !! k = Some p →
  p ∈ evictList (cache w) ∧ ∃ e, heap w !! p = Some e ∧ key e = k.
Proof. intros Hinv. apply Hinv. Qed.

Lemma Inv_fresh (w : World) : Inv w → nextp w ∉ evictList (cache w).
Proof.
  intros Hinv Hin. destruct (inv_list w Hinv _ Hin) as (e & He & _).
  assert (nextp w < nextp w)%positive by (apply Hinv; eauto). lia.
Qed.

Lemma Inv_updated (k : K) (v : V) (ttl : Duration) (p : ptr) (old : entry)
    (w : World) :
  Inv w → items (cache w) !! k = Some p → heap w !! p = Some old →
  Inv (updated v ttl p old w).
Proof.
  intros Hinv Hk Hp. pose proof (Inv_key w k p old Hinv Hk Hp) as Hkey.
  destruct Hinv as [Hnd Hl Hi Ha Hreg Hloose].
  pose proof (MoveToFront_perm p _ Hnd) as Hperm.
  split; simpl.
  - by rewrite Hperm.
  - intros q Hq. rewrite Hperm in Hq.
    destruct (Hl q Hq) as (e & He & Hke).
    destruct (decide (q = p)) as [->|Hne].
    + rewrite lookup_insert_eq. eexists. split; [done|]. simpl. congruence.
    + rewrite lookup_insert_ne by done. eauto.
  - intros k' q Hq. rewrite Hperm.
    destruct (Hi k' q Hq) as (Hin & e & He & Hke). split; [done|].
    destruct (decide (q = p)) as [->|Hne].
    + rewrite lookup_insert_eq. eexists. split; [done|]. simpl. congruence.
    + rewrite lookup_insert_ne by done. eauto.
  - intros q [e Hq]. apply Ha.
    destruct (decide (q = p)) as [->|Hne]; [eauto|].
    rewrite lookup_insert_ne in Hq by done. eauto.
  - done.
  - intros k' q Hin. destruct (Hloose k' q Hin) as (Hself & e & He & Hke).
    split; [done|]. destruct (decide (q = p)) as [->|Hne].
    + rewrite lookup_insert_eq. eexists. split; [done|]. simpl. congruence.
    + rewrite lookup_insert_ne by done. eauto.
Qed.

Lemma Inv_inserted (k : K) (v : V) (ttl : Duration) (w : World) :
  Inv w → items (cache w) !! k = None → Inv (inserted k v ttl w).
Proof.
  intros Hinv Hk. pose proof (Inv_fresh w Hinv) as Hfresh.
  destruct Hinv as [Hnd Hl Hi Ha Hreg Hloose].
  split; simpl; unfold golist.PushFront.
  - by apply NoDup_cons.
  - intros q [->|Hq]%elem_of_cons.
    + rewrite lookup_insert_eq. eexists. split; [done|]. simpl.
      apply storedAt_insert_eq.
    + assert (q ≠ nextp w) by congruence.
      destruct (Hl q Hq) as (e & He & Hke).
      rewrite lookup_insert_ne by done. exists e. split; [done|].
      destruct (selfEq k) eqn:Hself;
        [|by apply storedAt_insert_unequal].
      apply storedAt_insert_ne; [|done]. intros Hkk.
      rewrite <- Hkk in Hke. apply storedAt_lookup in Hke; congruence.
  - intros k' q Hq. destruct (decide (k' = k)) as [->|Hne].
    + rewrite golookup_insert_eq in Hq by by eapply golookup_self.
      injection Hq as <-.
      split; [apply list_elem_of_here|].
      rewrite lookup_insert_eq. by eexists.
    + rewrite golookup_insert_ne in Hq by done.
      destruct (Hi k' q Hq) as (Hin & e & He & Hke).
      split; [by apply list_elem_of_further|].
      rewrite lookup_insert_ne by congruence. eauto.
  - intros q [e Hq]. destruct (decide (q = nextp w)) as [->|Hne]; [lia|].
    rewrite lookup_insert_ne in Hq by done.
    assert (q < nextp w)%positive by (apply Ha; eauto). lia.
  - intros k' q. rewrite goregular_insert.
    destruct (selfEq k) eqn:Hself; [|by apply Hreg].
    intros [[<- _]|[_ Hlk]]%lookup_insert_Some; [done|by eapply Hreg].
  - assert (∀ k' q, (k', q) ∈ loose (items (cache w)) →
              selfEq k' = false ∧
              ∃ e, <[nextp w := Entry k v (expiryOf ttl w)]> (heap w) !! q
                   = Some e ∧ key e = k') as Hold.
    { intros k' q Hin. destruct (Hloose k' q Hin) as (Hself & e & He & Hke).
      split; [done|]. exists e. split; [|done].
      rewrite lookup_insert_ne; [done|]. intros <-.
      assert (nextp w < nextp w)%positive by (apply Ha; eauto). lia. }
    intros k' q. rewrite goloose_insert.
    destruct (selfEq k) eqn:Hself; [by apply Hold|].
    intros [Hin|Hin]%elem_of_app; [by apply Hold|].
    apply list_elem_of_singleton in Hin. injection Hin as -> ->.
    split; [done|]. rewrite lookup_insert_eq. by eexists.
Qed.

(** [AddEx] never panics in a well-formed world, and keeps it well
    formed. *)
Lemma AddEx_Inv (k : K) (v : V) (ttl : Duration) (w : World) :
  Inv w → ∃ b w', AddEx k v ttl w = Ok b w' ∧ Inv w'.
Proof.
  intros Hinv. destruct (items (cache w) !! k) as [p|] eqn:Hk.
  - destruct (Inv_indexed w k p Hinv Hk) as (_ & old & Hp & _).
    rewrite (AddEx_update_eq k v ttl p old) by done.
    eexists _, _. split; [done|]. by eapply Inv_updated.
  - rewrite AddEx_insert_eq by done.
    pose proof (Inv_inserted k v ttl w Hinv Hk) as Hinv'.
    destruct (c_size (cache w) <? _)%Z.
    + unfold bind. rewrite removeOldest_eq by done.
      eexists _, _. split; [done|]. by apply Inv_dropBack.
    + eauto.
Qed.

(** ** Get, Contains, Peek, Remove, Len and Keys *)

Lemma sameButClock_refl (w : World) : sameButClock w w.
Proof. by repeat split. Qed.

Lemma sameButClock_afterCheck (e : entry) (w : World) :
  sameButClock w (afterCheck e w).
Proof. unfold afterCheck. destruct (expire e); by repeat split. Qed.

Lemma sameButClock_trans (w1 w2 w3 : World) :
  sameButClock w1 w2 → sameButClock w2 w3 → sameButClock w1 w3.
Proof.
  intros (?&?&?&?) (?&?&?&?). repeat split; congruence.
Qed.

Lemma Inv_sameButClock (w w' : World) : sameButClock w w' → Inv w → Inv w'.
Proof. intros (?&?&?&?). by apply Inv_same. Qed.

Lemma Get_absent_eq (k : K) (w : World) :
  items (cache w) !! k = None → Get k w = Ok (None, false) w.
Proof. intros Hk. unfold Get, bind, getCache. by rewrite Hk. Qed.

Lemma Get_indexed_eq (k : K) (p : ptr) (e : entry) (w : World) :
  items (cache w) !! k = Some p → heap w !! p = Some e →
  Get k w =
  if expiredAt e (clock (ticks w)) then Ok (None, false) (afterCheck e w)
  else Ok (Some (value e), true) (promoted p (afterCheck e w)).
Proof.
  intros Hk Hp. unfold Get, bind, getCache. rewrite Hk.
  unfold deref. rewrite Hp, IsExpired_eq.
  destruct (expiredAt e (clock (ticks w))); [done|].
  unfold setList, bind, getCache, setCache, ret, promoted.
  by rewrite !afterCheck_cache.
Qed.

Lemma Inv_promoted (p : ptr) (w : World) : Inv w → Inv (promoted p w).
Proof.
  intros [Hnd Hl Hi Ha Hreg Hloose].
  pose proof (MoveToFront_perm p _ Hnd) as Hperm.
  split; simpl; try done.
  - by rewrite Hperm.
  - intros q Hq. rewrite Hperm in Hq. by apply Hl.
  - intros k q Hq. rewrite Hperm. by apply Hi.
Qed.

Lemma Get_Inv (k : K) (w : World) :
  Inv w → ∃ r w', Get k w = Ok r w' ∧ Inv w'.
Proof.
  intros Hinv. destruct (items (cache w) !! k) as [p|] eqn:Hk.
  - destruct (Inv_indexed w k p Hinv Hk) as (_ & e & Hp & _).
    rewrite (Get_indexed_eq k p e) by done.
    destruct (expiredAt e (clock (ticks w))); eexists _, _; (split; [done|]).
    + by apply Inv_afterCheck.
    + by apply Inv_promoted, Inv_afterCheck.
  - rewrite Get_absent_eq by done. eauto.
Qed.

Lemma Contains_Inv (k : K) (w : World) :
  Inv w → ∃ r w', Contains k w = Ok r w' ∧ sameButClock w w'.
Proof.
  intros Hinv. unfold Contains, bind, getCache.
  destruct (items (cache w) !! k) as [p|] eqn:Hk.
  - destruct (Inv_indexed w k p Hinv Hk) as (_ & e & Hp & _).
    unfold deref. rewrite Hp, IsExpired_eq. unfold ret.
    eexists _, _. split; [done|]. apply sameButClock_afterCheck.
  - eexists _, _. split; [done|]. apply sameButClock_refl.
Qed.

Lemma Peek_Inv (k : K) (w : World) :
  Inv w → ∃ r w', Peek k w = Ok r w' ∧ sameButClock w w'.
Proof.
  intros Hinv. unfold Peek, bind, getCache.
  destruct (items (cache w) !! k) as [p|] eqn:Hk.
  - destruct (Inv_indexed w k p Hinv Hk) as (_ & e & Hp & _).
    unfold deref. rewrite Hp, IsExpired_eq. unfold ret.
    destruct (expiredAt e (clock (ticks w)));
      (eexists _, _; split; [done|]); apply sameButClock_afterCheck.
  - eexists _, _. split; [done|]. apply sameButClock_refl.
Qed.

Lemma Remove_absent_eq (k : K) (w : World) :
  items (cache w) !! k = None → Remove k w = Ok false w.
Proof. intros Hk. unfold Remove, bind, getCache. by rewrite Hk. Qed.

Lemma Remove_indexed_eq (k : K) (p : ptr) (e : entry) (w : World) :
  items (cache w) !! k = Some p → heap w !! p = Some e →
  Remove k w = Ok true (without p e w).
Proof.
  intros Hk Hp. unfold Remove, bind, getCache. rewrite Hk.
  by rewrite (removeElement_eq p e).
Qed.

Lemma Remove_Inv (k : K) (w : World) :
  Inv w → ∃ r w', Remove k w = Ok r w' ∧ Inv w'.
Proof.
  intros Hinv. destruct (items (cache w) !! k) as [p|] eqn:Hk.
  - destruct (Inv_indexed w k p Hinv Hk) as (Hin & e & Hp & _).
    rewrite (Remove_indexed_eq k p e) by done.
    eexists _, _. split; [done|]. by apply Inv_without.
  - rewrite Remove_absent_eq by done. eauto.
Qed.

Lemma Len_eq (w : World) : Len w = Ok (lenOf w) w.
Proof. reflexivity. Qed.

Lemma Keys_loop_total (ents : list ptr) (keys : list K) (w : World) :
  (∀ p, p ∈ ents → is_Some (heap w !! p)) →
  ∃ r w', Keys_loop ents keys w = Ok r w' ∧ sameButClock w w'.
Proof.
  revert keys w. induction ents as [|p ents IH]; intros keys w Hall; simpl.
  - eexists _, _. split; [done|]. apply sameButClock_refl.
  - destruct (Hall p) as [e Hp]; [apply list_elem_of_here|].
    unfold bind at 1. unfold deref at 1. rewrite Hp.
    unfold bind at 1. rewrite IsExpired_eq.
    pose proof (sameButClock_afterCheck e w) as Hs.
    destruct (IH (if expiredAt e (clock (ticks w)) then keys
                  else keys ++ [key e]) (afterCheck e w))
      as (r & w' & Hr & Hs').
    { intros q Hq. rewrite afterCheck_heap. apply Hall.
      by apply list_elem_of_further. }
    exists r, w'. split; [done|]. by eapply sameButClock_trans.
Qed.

Lemma Keys_Inv (w : World) :
  Inv w → ∃ r w', Keys w = Ok r w' ∧ sameButClock w w'.
Proof.
  intros Hinv. unfold Keys, bind, getCache. apply Keys_loop_total.
  intros p Hp. rewrite elem_of_reverse in Hp.
  destruct (inv_list w Hinv p Hp) as (e & He & _). eauto.
Qed.

(** ** Purge *)

Lemma regular_foldl_delete (kvs : list (K * ptr)) (m : gomap) (k : K)
    (p : ptr) :
  regular (foldl (λ m kp, delete kp.1 m) m kvs) !! k = Some p →
  regular m !! k = Some p ∧ (selfEq k = true → k ∉ kvs.*1).
Proof.
  revert m. induction kvs as [|[k' p'] kvs IH]; intros m Hlk; simpl in *.
  - split; [done|]. intros _. apply not_elem_of_nil.
  - apply IH in Hlk as [Hlk Hnin]. rewrite goregular_delete in Hlk.
    destruct (selfEq k') eqn:Hself.
    + apply lookup_delete_Some in Hlk as [Hne Hlk].
      split; [done|]. intros Hk. apply not_elem_of_cons.
      split; [congruence|by apply Hnin].
    + split; [done|]. intros Hk. apply not_elem_of_cons.
      split; [congruence|by apply Hnin].
Qed.

Lemma loose_foldl_delete (kvs : list (K * ptr)) (m : gomap) :
  loose (foldl (λ m kp, delete kp.1 m) m kvs) = loose m.
Proof.
  revert m. induction kvs as [|[k' p'] kvs IH]; intros m; simpl; [done|].
  by rewrite IH, goloose_delete.
Qed.

(** The loop of [Purge] over the pairs [kvs]: it calls the callback for
    each pair, with the key of the pair and the value its element holds,
    and deletes the keys from the index. *)
Lemma Purge_loop_eq (kvs : list (K * ptr)) (w : World) :
  (∀ k p, (k, p) ∈ kvs → is_Some (heap w !! p)) →
  ∃ w', Purge_loop kvs w = Ok tt w' ∧
    heap w' = heap w ∧ nextp w' = nextp w ∧ ticks w' = ticks w ∧
    evictList (cache w') = evictList (cache w) ∧
    c_size (cache w') = c_size (cache w) ∧
    c_expire (cache w') = c_expire (cache w) ∧
    onEvict (cache w') = onEvict (cache w) ∧
    items (cache w') = foldl (λ m kp, delete kp.1 m) (items (cache w)) kvs ∧
    evictions w' =
      evictions w ++
      (if onEvict (cache w)
       then omap (λ kp, (λ e, (kp.1, value e)) <$> heap w !! kp.2) kvs
       else []).
Proof.
  revert w. induction kvs as [|[k p] kvs IH]; intros w Hall; simpl.
  - exists w. split_and!; try done.
    destruct (onEvict (cache w)); by rewrite app_nil_r.
  - destruct (Hall k p) as [e Hp]; [apply list_elem_of_here|].
    unfold bind at 1. unfold getCache at 1.
    unfold bind at 1.
    destruct (onEvict (cache w)) eqn:Hcb.
    + unfold bind at 1. unfold deref at 1. rewrite Hp.
      unfold callOnEvict at 1. rewrite Hcb.
      unfold bind at 1. unfold getCache at 1.
      unfold bind at 1. unfold setItems, bind, getCache, setCache. simpl.
      match goal with |- ∃ _, Purge_loop _ ?w1 = _ ∧ _ =>
        destruct (IH w1)
          as (w' & Hr & Hh & Hn & Ht & Hl & Hs & Hx & Hc & Hi & He)
      end.
      { intros k' p' Hin. simpl. apply (Hall k' p').
        by apply list_elem_of_further. }
      simpl in *. exists w'.
      rewrite Hr, Hh, Hn, Ht, Hl, Hs, Hx, Hc, Hi, He, Hcb.
      split_and!; try done. by rewrite <- app_assoc.
    + unfold ret at 1.
      unfold bind at 1. unfold getCache at 1.
      unfold bind at 1. unfold setItems, bind, getCache, setCache. simpl.
      match goal with |- ∃ _, Purge_loop _ ?w1 = _ ∧ _ =>
        destruct (IH w1)
          as (w' & Hr & Hh & Hn & Ht & Hl & Hs & Hx & Hc & Hi & He)
      end.
      { intros k' p' Hin. simpl. apply (Hall k' p').
        by apply list_elem_of_further. }
      simpl in *. exists w'.
      rewrite Hr, Hh, Hn, Ht, Hl, Hs, Hx, Hc, Hi, He, Hcb.
      split_and!; done.
Qed.

(** Every pair of the index points to an allocated element that holds the
    key of the pair. *)
Lemma Inv_range (w : World) (k : K) (p : ptr) :
  Inv w → (k, p) ∈ gomap_range (items (cache w)) →
  ∃ e, heap w !! p = Some e ∧ key e = k.
Proof.
  intros Hinv [Hin|Hin]%elem_of_app.
  - apply elem_of_map_to_list in Hin.
    assert (items (cache w) !! k = Some p) as Hk.
    { apply golookup_Some. split; [|done]. by eapply inv_regular. }
    by destruct (inv_items w Hinv k p Hk) as (_ & e & ? & ?); exists e.
  - by destruct (inv_loose w Hinv k p Hin) as (_ & e & ? & ?); exists e.
Qed.

(** [Purge] empties the list and takes out of the index every key that is
    equal to itself; it calls the callback once for every pair of the
    index. *)
Lemma Purge_eq (w : World) :
  Inv w →
  ∃ w', Purge w = Ok tt w' ∧ Inv w' ∧
    evictList (cache w') = [] ∧
    items (cache w') = GoMap ∅ (loose (items (cache w))) ∧
    heap w' = heap w ∧ nextp w' = nextp w ∧ ticks w' = ticks w ∧
    c_size (cache w') = c_size (cache w) ∧
    c_expire (cache w') = c_expire (cache w) ∧
    onEvict (cache w') = onEvict (cache w) ∧
    evictions w' =
      evictions w ++
      (if onEvict (cache w)
       then omap (λ kp, (λ e, (kp.1, value e)) <$> heap w !! kp.2)
                 (gomap_range (items (cache w)))
       else []).
Proof.
  intros Hinv. unfold Purge.
  unfold bind at 1. unfold getCache at 1. unfold bind at 1.
  destruct (Purge_loop_eq (gomap_range (items (cache w))) w)
    as (w1 & Hr & Hh & Hn & Ht & Hl & Hs & Hx & Hc & Hi & He).
  { intros k p Hin. destruct (Inv_range w k p Hinv Hin) as (e & ? & _).
    eauto. }
  rewrite Hr. unfold bind, getCache, setList, setCache, golist.Init. simpl.
  assert (items (cache w1) = GoMap ∅ (loose (items (cache w)))) as Hempty.
  { rewrite Hi.
    destruct (foldl _ _ _) as [reg lo] eqn:Hfold.
    pose proof (loose_foldl_delete (gomap_range (items (cache w)))
                  (items (cache w))) as Hlo.
    rewrite Hfold in Hlo. simpl in Hlo. rewrite Hlo. f_equal.
    apply map_eq. intros k. rewrite lookup_empty.
    destruct (reg !! k) as [p|] eqn:Hlk; [|done].
    assert (regular (foldl (λ m kp, delete kp.1 m) (items (cache w))
                       (gomap_range (items (cache w)))) !! k = Some p)
      as Hlk' by by rewrite Hfold.
    apply regular_foldl_delete in Hlk' as [Hlk' Hnin].
    exfalso. apply Hnin; [by eapply inv_regular|].
    apply list_elem_of_fmap.
    exists (k, p). split; [done|]. apply elem_of_app. left.
    by apply elem_of_map_to_list. }
  eexists. split; [done|]. simpl. rewrite Hempty. simpl.
  split; [|split_and!; done].
  destruct Hinv as [Hnd Hlist Hitems Ha Hreg Hloose].
  split; simpl.
  - apply NoDup_nil_2.
  - intros p Hp. by apply elem_of_nil in Hp.
  - intros k p [_ Hlk]%golookup_Some. simpl in Hlk.
    by rewrite lookup_empty in Hlk.
  - rewrite Hh, Hn. apply Ha.
  - intros k p Hlk. by rewrite lookup_empty in Hlk.
  - rewrite Hh. apply Hloose.
Qed.

(** ** Removal from the back *)

Lemma notified_app (c : LRU) (es1 es2 : list entry) :
  notified c (es1 ++ es2) = notified c es1 ++ notified c es2.
Proof. unfold notified. destruct (onEvict c); [apply fmap_app|done]. Qed.

Lemma notified_same (c c' : LRU) (es : list entry) :
  onEvict c' = onEvict c → notified c' es = notified c es.
Proof. unfold notified. by intros ->. Qed.

Lemma entriesOf_same (w w' : World) (ps : list ptr) :
  heap w' = heap w → entriesOf w' ps = entriesOf w ps.
Proof. unfold entriesOf. by intros ->. Qed.

Lemma entriesOf_app (w : World) (ps qs : list ptr) :
  entriesOf w (ps ++ qs) = entriesOf w ps ++ entriesOf w qs.
Proof. apply omap_app. Qed.

Lemma entriesOf_one (w : World) (p : ptr) (e : entry) :
  heap w !! p = Some e → entriesOf w [p] = [e].
Proof. intros Hp. unfold entriesOf. simpl. by rewrite Hp. Qed.

Lemma removedFromBack_none (w : World) :
  Inv w → removedFromBack w w (evictList (cache w)) [].
Proof.
  intros Hinv. unfold removedFromBack.
  rewrite !app_nil_r. split_and!; try done.
  - intros k p. split; [|tauto].
    intros Hk. split; [done|]. by apply (Inv_indexed w k p).
  - unfold notified, entriesOf. simpl.
    destruct (onEvict (cache w)); by rewrite app_nil_r.
Qed.

Lemma removedFromBack_without (w : World) (l : list ptr) (p : ptr)
    (e : entry) :
  Inv w → evictList (cache w) = l ++ [p] → heap w !! p = Some e →
  removedFromBack w (without p e w) l [p].
Proof.
  intros Hinv Hl Hp.
  assert (NoDup (l ++ [p])) as Hnd by (rewrite <- Hl; apply Hinv).
  assert (storedAt (items (cache w)) (key e) p) as Hkp.
  { destruct (inv_list w Hinv p) as (e' & He' & Hk); [|congruence].
    rewrite Hl. apply elem_of_app. right. apply list_elem_of_here. }
  unfold removedFromBack. simpl. rewrite Hl, unlink_back by done.
  split_and!; try done.
  - intros k q. rewrite golookup_delete_Some. split.
    + intros [Hne Hlk]. split; [done|].
      destruct (Inv_indexed w k q Hinv Hlk) as (Hin & _).
      rewrite Hl in Hin. apply elem_of_app in Hin as [Hin|Hin]; [done|].
      apply list_elem_of_singleton in Hin as ->.
      exfalso. apply Hne. by apply (Inv_key w k p e).
    + intros [Hlk Hin]. split; [|done].
      intros <-. apply storedAt_lookup in Hkp; [|by eapply golookup_self].
      assert (q = p) as -> by congruence.
      apply NoDup_app in Hnd as (_ & Hdis & _).
      apply (Hdis p Hin). apply list_elem_of_here.
  - by rewrite Hp.
  - apply goloose_delete.
Qed.

Lemma removedFromBack_trans (w w1 w2 : World) (k1 g1 k2 g2 : list ptr) :
  removedFromBack w w1 k1 g1 → removedFromBack w1 w2 k2 g2 →
  removedFromBack w w2 k2 (g2 ++ g1).
Proof.
  intros (Hl & Hl1 & Hi & Hh & Hn & He & Hs & Hx & Hc & Hlo)
         (Hl' & Hl2 & Hi' & Hh' & Hn' & He' & Hs' & Hx' & Hc' & Hlo').
  rewrite Hl1 in Hl'. subst k1.
  unfold removedFromBack. split_and!; try congruence.
  - by rewrite Hl, Hl', <- app_assoc.
  - intros k p. rewrite Hi', Hi, Hl', elem_of_app. tauto.
  - rewrite He', He, reverse_app, entriesOf_app, notified_app, <- app_assoc.
    by rewrite (notified_same _ _ _ Hc), (entriesOf_same _ _ _ Hh).
Qed.

Lemma removedFromBack_clock (w w1 w2 : World) (kept gone : list ptr) :
  removedFromBack w w1 kept gone → sameButClock w1 w2 →
  removedFromBack w w2 kept gone.
Proof.
  intros (Hl & Hl1 & Hi & Hh & Hn & He & Hs & Hx & Hc & Hlo)
         (Hc2 & Hh2 & Hn2 & He2).
  unfold removedFromBack. rewrite Hc2, Hh2, Hn2, He2. by split_and!.
Qed.

Lemma removedFromBack_from_clock (w0 w w' : World) (kept gone : list ptr) :
  sameButClock w0 w → removedFromBack w w' kept gone →
  removedFromBack w0 w' kept gone.
Proof.
  intros (Hc & Hh & Hn & He)
         (Hl & Hl1 & Hi & Hh' & Hn' & He' & Hs & Hx & Hcb & Hlo).
  unfold removedFromBack.
  rewrite <- Hc, <- He, <- (entriesOf_same w0 w) by done.
  split_and!; try done; congruence.
Qed.

(** ** RemoveOldest *)

Lemma expiredRun_nil (w : World) : expiredRun w [].
Proof. intros j q Hj. by rewrite reverse_nil, lookup_nil in Hj. Qed.

Lemma expiredRun_snoc (w w2 : World) (g : list ptr) (p : ptr) (e : entry) :
  heap w2 = heap w → ticks w2 = S (ticks w) →
  heap w !! p = Some e → expiredAt e (clock (ticks w)) = true →
  expiredRun w2 g → expiredRun w (g ++ [p]).
Proof.
  intros Hh Ht Hp Hexp Hrun j q Hj.
  rewrite reverse_app, reverse_singleton in Hj. destruct j as [|j].
  - simpl in Hj. injection Hj as <-. exists e. by rewrite Nat.add_0_r.
  - simpl in Hj. destruct (Hrun j q Hj) as (eq & Hq & Hx).
    exists eq. rewrite Hh, Ht in *. split; [done|].
    by replace (ticks w + S j) with (S (ticks w) + j) by lia.
Qed.

Lemma afterCheck_expired (e : entry) (w : World) (now : Time) :
  expiredAt e now = true → afterCheck e w = tick w.
Proof. unfold expiredAt, afterCheck. by destruct (expire e). Qed.

Lemma RemoveOldest_loop_spec (fuel : nat) (w : World) :
  Inv w → length (evictList (cache w)) < fuel →
  ∃ kept gone res w',
    RemoveOldest_loop fuel w = Ok res w' ∧ Inv w' ∧
    removedFromBack w w' kept gone ∧
    (returnedFresh w gone res ∨ returnedNothing w kept gone res).
Proof.
  revert w. induction fuel as [|fuel IH]; intros w Hinv Hfuel; [lia|].
  simpl. unfold bind at 1. unfold getCache at 1.
  pose proof (Back_inv (evictList (cache w))) as Hb.
  destruct (golist.Back (evictList (cache w))) as [p|].
  - destruct Hb as [l Hl].
    assert (p ∈ evictList (cache w)) as Hin.
    { rewrite Hl. apply elem_of_app. right. apply list_elem_of_here. }
    destruct (inv_list w Hinv p Hin) as (e & Hp & _).
    pose proof (removedFromBack_without w l p e Hinv Hl Hp) as Hrm.
    pose proof (Inv_without p e w Hinv Hin Hp) as Hinv1.
    unfold bind at 1. rewrite (removeElement_eq p e) by done.
    unfold bind at 1. unfold deref at 1.
    replace (heap (without p e w)) with (heap w) by done. rewrite Hp.
    unfold bind at 1. rewrite IsExpired_eq.
    replace (ticks (without p e w)) with (ticks w) by done.
    pose proof (sameButClock_afterCheck e (without p e w)) as Hsame.
    destruct (expiredAt e (clock (ticks w))) eqn:Hexp.
    + destruct (IH (afterCheck e (without p e w)))
        as (kept & gone & res & w' & Hr & Hinv' & Hrm' & Hend).
      { by apply Inv_afterCheck. }
      { rewrite afterCheck_cache. destruct Hrm as (_ & -> & _).
        rewrite Hl, length_app in Hfuel. simpl in Hfuel. lia. }
      exists kept, (gone ++ [p]), res, w'. split_and!; [done|done| |].
      * eapply removedFromBack_trans; [exact Hrm|].
        by eapply removedFromBack_from_clock.
      * rewrite (afterCheck_expired e _ _ Hexp) in Hend.
        destruct Hend as [(p2 & e2 & g2 & -> & Hp2 & -> & Hx2 & Hrun)
                         |(-> & -> & Hrun)].
        -- left. exists p2, e2, (g2 ++ [p]). split_and!; try done.
           ++ rewrite length_app. simpl in *.
              by replace (ticks w + (length g2 + 1))
                with (S (ticks w + length g2)) by lia.
           ++ by eapply (expiredRun_snoc w (tick (without p e w))).
        -- right. split_and!; try done.
           by eapply (expiredRun_snoc w (tick (without p e w))).
    + exists l, [p], (Some (key e), Some (value e), true),
        (afterCheck e (without p e w)).
      split_and!; [done|by apply Inv_afterCheck| |].
      * by eapply removedFromBack_clock.
      * left. exists p, e, []. simpl. rewrite Nat.add_0_r.
        split_and!; first [done|apply expiredRun_nil].
  - exists [], [], (None, None, false), w.
    split_and!; [done|done| |].
    + pose proof (removedFromBack_none w Hinv) as Hrm. by rewrite Hb in Hrm.
    + right. split_and!; first [done|apply expiredRun_nil].
Qed.

Lemma RemoveOldest_Inv (w : World) :
  Inv w → ∃ r w', RemoveOldest w = Ok r w' ∧ Inv w'.
Proof.
  intros Hinv. unfold RemoveOldest.
  destruct (RemoveOldest_loop_spec (S (length (evictList (cache w)))) w)
    as (kept & gone & res & w' & Hr & Hinv' & _); [done|lia|eauto].
Qed.

(** ** GetOldest *)

Lemma GetOldest_empty_eq (w : World) :
  evictList (cache w) = [] → GetOldest w = Ok (None, None, false) w.
Proof.
  intros Hl. unfold GetOldest. simpl. unfold bind, getCache. by rewrite Hl.
Qed.

Lemma GetOldest_fresh_eq (w : World) (p : ptr) (e : entry) :
  golist.Back (evictList (cache w)) = Some p → heap w !! p = Some e →
  expiredAt e (clock (ticks w)) = false →
  GetOldest w = Ok (Some (key e), Some (value e), true) (afterCheck e w).
Proof.
  intros Hb Hp Hexp. unfold GetOldest. simpl.
  unfold bind at 1. unfold getCache at 1. rewrite Hb.
  unfold bind at 1. unfold deref at 1. rewrite Hp.
  unfold bind at 1. by rewrite IsExpired_eq, Hexp.
Qed.

(** On an expired back element, [GetOldest] hands the nil [ent.Next()] to
    [removeElement]. *)
Lemma GetOldest_expired_eq (w : World) (p : ptr) (e : entry) :
  NoDup (evictList (cache w)) →
  golist.Back (evictList (cache w)) = Some p → heap w !! p = Some e →
  expiredAt e (clock (ticks w)) = true →
  GetOldest w = Abort NilDereference (tick w).
Proof.
  intros Hnd Hb Hp Hexp. unfold GetOldest. simpl.
  unfold bind at 1. unfold getCache at 1. rewrite Hb.
  unfold bind at 1. unfold deref at 1. rewrite Hp.
  unfold bind at 1. rewrite IsExpired_eq, Hexp.
  pose proof (Back_inv (evictList (cache w))) as Hl. rewrite Hb in Hl.
  destruct Hl as [l Hl]. rewrite Hl in Hnd |- *.
  rewrite Next_back by done. unfold bind.
  by rewrite removeElement_nil, (afterCheck_expired e w _ Hexp).
Qed.

(** Returning or not, [GetOldest] changes nothing but the count of clock
    readings. *)
Lemma GetOldest_Inv (w : World) :
  Inv w → sameButClock w (worldOf (GetOldest w)).
Proof.
  intros Hinv.
  pose proof (Back_inv (evictList (cache w))) as Hb.
  destruct (golist.Back (evictList (cache w))) as [p|] eqn:Hback.
  - destruct Hb as [l Hl].
    destruct (inv_list w Hinv p) as (e & Hp & _).
    { rewrite Hl. apply elem_of_app. right. apply list_elem_of_here. }
    destruct (expiredAt e (clock (ticks w))) eqn:Hexp.
    + rewrite (GetOldest_expired_eq w p e); [|apply Hinv|done..].
      by repeat split.
    + rewrite (GetOldest_fresh_eq w p e) by done.
      apply sameButClock_afterCheck.
  - rewrite GetOldest_empty_eq by done. apply sameButClock_refl.
Qed.

(** ** Resize *)

Lemma repeat_removeOldest (n : nat) (w : World) :
  Inv w →
  ∃ w', repeatM n removeOldest w = Ok tt w' ∧ Inv w' ∧
    ticks w' = ticks w ∧
    removedFromBack w w'
      (take (length (evictList (cache w)) - n) (evictList (cache w)))
      (drop (length (evictList (cache w)) - n) (evictList (cache w))).
Proof.
  revert w. induction n as [|n IH]; intros w Hinv.
  - exists w. rewrite Nat.sub_0_r, take_ge, drop_ge by lia.
    split_and!; try done. by apply removedFromBack_none.
  - simpl. unfold bind. rewrite removeOldest_eq by done.
    pose proof (Back_inv (evictList (cache w))) as Hb.
    destruct (golist.Back (evictList (cache w))) as [p|].
    + destruct Hb as [l Hl].
      destruct (inv_list w Hinv p) as (e & Hp & _).
      { rewrite Hl. apply elem_of_app. right. apply list_elem_of_here. }
      assert (p ∈ evictList (cache w)) as Hin.
      { rewrite Hl. apply elem_of_app. right. apply list_elem_of_here. }
      destruct (dropBack_snoc w l p e Hinv Hl Hp) as [-> Hl1].
      pose proof (removedFromBack_without w l p e Hinv Hl Hp) as Hrm.
      destruct (IH (without p e w)) as (w' & Hr & Hinv' & Ht & Hrm').
      { by apply Inv_without. }
      exists w'. rewrite Hr. split_and!; [done|done|done|].
      rewrite Hl1 in Hrm'.
      pose proof (removedFromBack_trans _ _ _ _ _ _ _ Hrm Hrm') as Htr.
      rewrite Hl, length_app. simpl.
      replace (length l + 1 - S n) with (length l - n) by lia.
      rewrite take_app_le, drop_app_le by lia. done.
    + rewrite dropBack_nil by done.
      destruct (IH w Hinv) as (w' & Hr & Hinv' & Ht & Hrm).
      exists w'. rewrite Hb in *. simpl in *. by split_and!.
Qed.

Lemma Inv_withSize (size : Z) (w : World) : Inv w → Inv (withSize size w).
Proof. intros [H1 H2 H3 H4]. by split. Qed.

(** What [Resize] does for any requested size: it removes [diff] times
    from the back, where [diff] is the wrapped difference, or zero when
    that is negative, and returns [diff]. *)
Lemma Resize_eq (size : Z) (w : World) :
  Inv w →
  let diff := Z.max 0 (wrap64 (lenOf w - size)) in
  let n := length (evictList (cache w)) - Z.to_nat diff in
  ∃ w1, Resize size w = Ok diff (withSize size w1) ∧ Inv w1 ∧
    ticks w1 = ticks w ∧
    removedFromBack w w1 (take n (evictList (cache w)))
                         (drop n (evictList (cache w))).
Proof.
  intros Hinv diff n. unfold Resize. unfold bind at 1. rewrite Len_eq.
  assert ((if (wrap64 (lenOf w - size) <? 0)%Z then 0%Z
           else wrap64 (lenOf w - size)) = diff) as ->.
  { unfold diff. destruct (Z.ltb_spec (wrap64 (lenOf w - size)) 0); lia. }
  destruct (repeat_removeOldest (Z.to_nat diff) w Hinv)
    as (w1 & Hr & Hinv1 & Ht & Hrm).
  unfold bind at 1. rewrite Hr.
  exists w1. split_and!; try done.
Qed.

Lemma Resize_Inv (size : Z) (w : World) :
  Inv w → ∃ r w', Resize size w = Ok r w' ∧ Inv w'.
Proof.
  intros Hinv. destruct (Resize_eq size w Hinv) as (w1 & Hr & Hinv1 & _).
  eexists _, _. split; [done|]. by apply Inv_withSize.
Qed.

(** ** Every public operation keeps the world well formed *)

Lemma Inv_start (c : LRU) (t : nat) (size : Z) (dflt : Duration)
    (cb : bool) :
  NewLRUWithExpire size dflt cb = inr c → Inv (startWorld c t).
Proof.
  unfold NewLRUWithExpire. destruct (size <=? 0)%Z; [done|].
  intros [= <-]. split; simpl.
  - apply NoDup_nil_2.
  - intros p Hp. by apply elem_of_nil in Hp.
  - intros k p Hk. by rewrite golookup_empty in Hk.
  - intros p [e Hp]. by rewrite lookup_empty in Hp.
  - intros k p Hk. by rewrite lookup_empty in Hk.
  - intros k p Hk. by apply elem_of_nil in Hk.
Qed.

Lemma exec_Inv (o : op) (w w' : World) :
  Inv w → exec o w = Ok tt w' → Inv w'.
Proof.
  intros Hinv. destruct o; simpl; unfold bind, ret.
  - destruct (AddEx_Inv k v 0 w Hinv) as (b & w1 & Hr & Hinv1).
    unfold Add. rewrite Hr. by intros [= <-].
  - destruct (AddEx_Inv k v ttl w Hinv) as (b & w1 & Hr & Hinv1).
    rewrite Hr. by intros [= <-].
  - destruct (Get_Inv k w Hinv) as (b & w1 & Hr & Hinv1).
    rewrite Hr. by intros [= <-].
  - destruct (Contains_Inv k w Hinv) as (b & w1 & Hr & Hs).
    rewrite Hr. intros [= <-]. by eapply Inv_sameButClock.
  - destruct (Peek_Inv k w Hinv) as (b & w1 & Hr & Hs).
    rewrite Hr. intros [= <-]. by eapply Inv_sameButClock.
  - destruct (Remove_Inv k w Hinv) as (b & w1 & Hr & Hinv1).
    rewrite Hr. by intros [= <-].
  - destruct (RemoveOldest_Inv w Hinv) as (b & w1 & Hr & Hinv1).
    rewrite Hr. by intros [= <-].
  - pose proof (GetOldest_Inv w Hinv) as Hs.
    destruct (GetOldest w) as [r w1|f w1]; [|done].
    intros [= <-]. by eapply Inv_sameButClock.
  - destruct (Keys_Inv w Hinv) as (b & w1 & Hr & Hs).
    rewrite Hr. intros [= <-]. by eapply Inv_sameButClock.
  - rewrite Len_eq. by intros [= <-].
  - destruct (Resize_Inv size w Hinv) as (b & w1 & Hr & Hinv1).
    rewrite Hr. by intros [= <-].
  - destruct (Purge_eq w Hinv) as (w1 & Hr & Hinv1 & _).
    rewrite Hr. by intros [= <-].
Qed.

Lemma run_Inv (ops : list op) (w w' : World) :
  Inv w → run ops w = Ok tt w' → Inv w'.
Proof.
  revert w. induction ops as [|o ops IH]; intros w Hinv; simpl.
  - by intros [= <-].
  - unfold bind. destruct (exec o w) as [[] w1|f w1] eqn:Ho; [|done].
    intros Hr. eapply IH; [|done]. by eapply exec_Inv.
Qed.

Lemma lenOf_cons (p : ptr) (l : list ptr) :
  golist.Len (p :: l) = (golist.Len l + 1)%Z.
Proof. unfold golist.Len. simpl. lia. Qed.

(** [AddEx] of a key that is not indexed: the new element is pushed, and
    when the list is then longer than the size the back element goes. *)
Lemma AddEx_insert_spec (k : K) (v : V) (ttl : Duration) (w : World) :
  Inv w → items (cache w) !! k = None →
  Inv (inserted k v ttl w) ∧
  if (c_size (cache w) <? lenOf w + 1)%Z then
    ∃ kept q eq,
      nextp w :: evictList (cache w) = kept ++ [q] ∧
      heap (inserted k v ttl w) !! q = Some eq ∧
      AddEx k v ttl w = Ok true (without q eq (inserted k v ttl w)) ∧
      Inv (without q eq (inserted k v ttl w)) ∧
      removedFromBack (inserted k v ttl w)
        (without q eq (inserted k v ttl w)) kept [q]
  else AddEx k v ttl w = Ok false (inserted k v ttl w).
Proof.
  intros Hinv Hk. pose proof (Inv_inserted k v ttl w Hinv Hk) as Hinv1.
  split; [done|]. rewrite AddEx_insert_eq, lenOf_cons by done.
  fold (lenOf w). destruct (c_size (cache w) <? lenOf w + 1)%Z; [|done].
  pose proof (Back_inv (evictList (cache (inserted k v ttl w)))) as Hb.
  destruct (golist.Back _) as [q|] eqn:Hback; [|done].
  destruct Hb as [kept Hl].
  assert (q ∈ evictList (cache (inserted k v ttl w))) as Hin.
  { rewrite Hl. apply elem_of_app. right. apply list_elem_of_here. }
  destruct (inv_list _ Hinv1 q Hin) as (eq & Hq & _).
  exists kept, q, eq. unfold bind. rewrite removeOldest_eq by done.
  destruct (dropBack_snoc _ kept q eq Hinv1 Hl Hq) as [-> _].
  split_and!; try done.
  - by apply Inv_without.
  - by apply removedFromBack_without.
Qed.

(** [AddEx] keeps the list within the size, when it was. *)
Lemma AddEx_within (k : K) (v : V) (ttl : Duration) (w : World) :
  Inv w → (lenOf w ≤ c_size (cache w))%Z →
  ∃ b w', AddEx k v ttl w = Ok b w' ∧ Inv w' ∧
    c_size (cache w') = c_size (cache w) ∧
    (lenOf w' ≤ c_size (cache w'))%Z.
Proof.
  intros Hinv Hle. destruct (items (cache w) !! k) as [p|] eqn:Hk.
  - destruct (Inv_indexed w k p Hinv Hk) as (_ & old & Hp & _).
    rewrite (AddEx_update_eq k v ttl p old) by done.
    eexists _, _. split_and!; [done|by eapply Inv_updated|done|].
    unfold lenOf, golist.Len in *. simpl.
    by rewrite (MoveToFront_perm p _ (inv_nodup w Hinv)).
  - destruct (AddEx_insert_spec k v ttl w Hinv Hk) as [Hinv1 Hspec].
    destruct (Z.ltb_spec (c_size (cache w)) (lenOf w + 1)).
    + destruct Hspec as (kept & q & eq & Hl & Hq & -> & Hinv' & Hrm).
      eexists _, _. split_and!; [done|done|done|].
      destruct Hrm as (_ & Hkept & _).
      unfold lenOf, golist.Len in *. rewrite Hkept.
      apply (f_equal length) in Hl. rewrite length_app in Hl.
      simpl in *. lia.
    + rewrite Hspec. eexists _, _. split_and!; [done|done|done|].
      unfold lenOf, golist.Len in *. simpl in *. lia.
Qed.

(** A map none of whose keys is unequal to itself has no pair out of the
    reach of lookups. *)
Lemma Inv_loose_nil (w : World) :
  Inv w →
  (∀ k p, (k, p) ∈ gomap_range (items (cache w)) → selfEq k = true) →
  loose (items (cache w)) = [].
Proof.
  intros Hinv Hself. destruct (loose (items (cache w))) as [|[k p] l] eqn:Hl;
    [done|].
  assert ((k, p) ∈ loose (items (cache w))) as Hin
    by (rewrite Hl; apply list_elem_of_here).
  destruct (inv_loose w Hinv k p Hin) as [Hk _].
  rewrite (Hself k p) in Hk; [done|].
  unfold gomap_range. apply elem_of_app. by right.
Qed.

(** In a well-formed world whose index holds no key unequal to itself,
    the index has one key per element of the list. *)
Lemma Inv_size (w : World) :
  Inv w → loose (items (cache w)) = [] →
  size (items (cache w)) = length (evictList (cache w)).
Proof.
  intros Hinv Hl. unfold size at 1, gomap_size. rewrite Hl. simpl.
  rewrite Nat.add_0_r, <- length_map_to_list.
  rewrite <- (length_fmap snd). apply Permutation_length.
  assert (∀ k p, regular (items (cache w)) !! k = Some p →
    items (cache w) !! k = Some p) as Hreg.
  { intros k p Hk. apply golookup_Some. split; [|done].
    by apply (inv_regular w Hinv k p). }
  apply NoDup_Permutation.
  - apply NoDup_fmap_2_strong; [|apply NoDup_map_to_list].
    intros [k1 p1] [k2 p2] Hin1%elem_of_map_to_list%Hreg
      Hin2%elem_of_map_to_list%Hreg Heq. simpl in *. subst p2.
    destruct (Inv_indexed w k1 p1 Hinv Hin1) as (_ & e & Hp & Hk1).
    by rewrite <- Hk1, (Inv_key w k2 p1 e).
  - apply Hinv.
  - intros p. rewrite list_elem_of_fmap. split.
    + intros ([k q] & -> & Hin%elem_of_map_to_list%Hreg).
      by apply (Inv_indexed w k q).
    + intros Hin. destruct (inv_list w Hinv p Hin) as (e & Hp & Hk).
      exists (key e, p). split; [done|]. apply elem_of_map_to_list.
      unfold storedAt in Hk. destruct (selfEq (key e)) eqn:Hs.
      * by apply golookup_Some in Hk as [_ ?].
      * rewrite Hl in Hk. by apply elem_of_nil in Hk.
Qed.

(** A lookup finds a key exactly when the key is equal to itself and an
    element of the list holds an entry with it. *)
Lemma Inv_keys (w : World) (k : K) :
  Inv w →
  is_Some (items (cache w) !! k) ↔
  selfEq k = true ∧
  ∃ p e, p ∈ evictList (cache w) ∧ heap w !! p = Some e ∧ key e = k.
Proof.
  intros Hinv. split.
  - intros [p Hk]. split; [by apply golookup_self in Hk|].
    destruct (Inv_indexed w k p Hinv Hk) as (Hin & e & ? & ?).
    by exists p, e.
  - intros (Hs & p & e & Hin & Hp & <-).
    destruct (inv_list w Hinv p Hin) as (e' & Hp' & Hk).
    exists p. apply storedAt_lookup; [done|]. congruence.
Qed.

(** Without keys unequal to themselves, every entry of the list has a key
    that is equal to itself. *)
Lemma Inv_listed_self (w : World) (p : ptr) (e : entry) :
  Inv w → loose (items (cache w)) = [] →
  p ∈ evictList (cache w) → heap w !! p = Some e → selfEq (key e) = true.
Proof.
  intros Hinv Hl Hin Hp.
  destruct (inv_list w Hinv p Hin) as (e' & Hp' & Hk).
  assert (e' = e) as -> by congruence.
  unfold storedAt in Hk. destruct (selfEq (key e)); [done|].
  rewrite Hl in Hk. by apply elem_of_nil in Hk.
Qed.

(** Two well-formed worlds in which lookups find the same elements and
    which hold the same pairs under keys unequal to themselves have the
    same index. *)
Lemma Inv_items_eq (w w' : World) :
  Inv w → Inv w' →
  (∀ k p, items (cache w') !! k = Some p ↔ items (cache w) !! k = Some p) →
  loose (items (cache w')) = loose (items (cache w)) →
  items (cache w') = items (cache w).
Proof.
  intros Hinv Hinv' Hlk Hl.
  assert (regular (items (cache w')) = regular (items (cache w))) as Hr.
  { apply map_eq. intros k. apply option_eq. intros p. split; intros Hk.
    - assert (selfEq k = true) as Hs by by apply (inv_regular w' Hinv' k p).
      assert (items (cache w) !! k = Some p) as Hk'
        by (apply Hlk; by apply golookup_Some).
      by apply golookup_Some in Hk' as [_ ?].
    - assert (selfEq k = true) as Hs by by apply (inv_regular w Hinv k p).
      assert (items (cache w') !! k = Some p) as Hk'
        by (apply Hlk; by apply golookup_Some).
      by apply golookup_Some in Hk' as [_ ?]. }
  destruct (items (cache w')), (items (cache w)). simpl in *. by subst.
Qed.

(** Every operation but [GetOldest] runs to completion in a well-formed
    world. *)
Lemma exec_total (o : op) (w : World) :
  Inv w → o ≠ OpGetOldest → ∃ w', exec o w = Ok tt w'.
Proof.
  intros Hinv Ho. destruct o; simpl; unfold bind, ret; try done.
  - destruct (AddEx_Inv k v 0 w Hinv) as (b & w1 & Hr & _).
    unfold Add. rewrite Hr. eauto.
  - destruct (AddEx_Inv k v ttl w Hinv) as (b & w1 & Hr & _).
    rewrite Hr. eauto.
  - destruct (Get_Inv k w Hinv) as (b & w1 & Hr & _). rewrite Hr. eauto.
  - destruct (Contains_Inv k w Hinv) as (b & w1 & Hr & _).
    rewrite Hr. eauto.
  - destruct (Peek_Inv k w Hinv) as (b & w1 & Hr & _). rewrite Hr. eauto.
  - destruct (Remove_Inv k w Hinv) as (b & w1 & Hr & _). rewrite Hr. eauto.
  - destruct (RemoveOldest_Inv w Hinv) as (b & w1 & Hr & _).
    rewrite Hr. eauto.
  - destruct (Keys_Inv w Hinv) as (b & w1 & Hr & _). rewrite Hr. eauto.
  - rewrite Len_eq. eauto.
  - destruct (Resize_Inv size w Hinv) as (b & w1 & Hr & _).
    rewrite Hr. eauto.
  - destruct (Purge_eq w Hinv) as (w1 & Hr & _). eauto.
Qed.

(** The world a call leaves is well formed, also when the call panics. *)
Lemma exec_Inv_world (o : op) (w : World) : Inv w → Inv (worldOf (exec o w)).
Proof.
  intros Hinv.
  assert (o = OpGetOldest ∨ o ≠ OpGetOldest) as [->|Ho]
    by (destruct o; first [by left|by right]).
  - pose proof (GetOldest_Inv w Hinv) as Hs. simpl. unfold bind, ret.
    destruct (GetOldest w) as [r w1|f w1]; by eapply Inv_sameButClock.
  - destruct (exec_total o w Hinv Ho) as [w' Hr]. rewrite Hr.
    by eapply exec_Inv.
Qed.

Lemma reachable_Inv (w : World) : reachable w → Inv w.
Proof.
  induction 1 as [size dflt cb c t Hnew|o w Hw IH].
  - by eapply Inv_start.
  - by apply exec_Inv_world.
Qed.

Lemma wrap64_small (z : Z) :
  (- 2 ^ 63 ≤ z < 2 ^ 63)%Z → wrap64 z = z.
Proof. intros Hz. unfold wrap64. rewrite Z.mod_small; lia. Qed.

(** ** The properties of the cache *)

(** C1 (the code departs from it): when the back element of the list holds
    an expired entry, [GetOldest] does not remove it and go on to the next
    back element.  It passes [ent.Next()], which is nil for the back
    element, to [removeElement], and the call panics on the nil pointer:
    nothing is removed, nothing is returned and the callback is not
    called. *)
Theorem GetOldest_expired_back_panics (w : World) (p : ptr) (e : entry) :
  Inv w →
  golist.Back (evictList (cache w)) = Some p → heap w !! p = Some e →
  expiredAt e (clock (ticks w)) = true →
  ∃ w',
    GetOldest w = Abort NilDereference w' ∧
    cache w' = cache w ∧ heap w' = heap w ∧ evictions w' = evictions w.
Proof.
  intros Hinv Hb Hp Hexp. exists (tick w). split; [|done].
  apply (GetOldest_expired_eq w p e); try done. apply Hinv.
Qed.

(** C2: from a cache built with a positive size, after every call of a
    sequence of [Add] and [AddEx] calls (with distinct keys or not) the
    length of the list is at most the size; and in the world reached,
    [AddEx] of a key that is not indexed, which would make the list longer
    than the size, evicts and leaves the length as it was. *)
Theorem Put_sequence_within_capacity (size : Z) (dflt : Duration)
    (cb : bool) (c : LRU) (t : nat) (ops : list op) (n : nat) :
  NewLRUWithExpire size dflt cb = inr c →
  Forall (λ o, isPut o = true) ops →
  ∃ w, run (take n ops) (startWorld c t) = Ok tt w ∧
    (0 < size)%Z ∧ c_size (cache w) = size ∧ (lenOf w ≤ size)%Z ∧
    ∀ k v ttl, items (cache w) !! k = None → (size < lenOf w + 1)%Z →
      ∃ w', AddEx k v ttl w = Ok true w' ∧ lenOf w' = lenOf w.
Proof.
  intros Hnew Hput.
  assert ((0 < size)%Z ∧ c_size c = size) as [Hpos Hsize].
  { unfold NewLRUWithExpire in Hnew.
    destruct (Z.leb_spec size 0); [done|]. by injection Hnew as <-. }
  assert (∀ ops' w0, Forall (λ o, isPut o = true) ops' → Inv w0 →
            (lenOf w0 ≤ c_size (cache w0))%Z →
            ∃ w, run ops' w0 = Ok tt w ∧ Inv w ∧
              c_size (cache w) = c_size (cache w0) ∧
              (lenOf w ≤ c_size (cache w))%Z) as Hrun.
  { induction ops' as [|o ops' IH]; intros w0 Hall Hinv Hle; simpl.
    - by exists w0.
    - apply Forall_cons in Hall as [Ho Hall]. unfold bind.
      assert (∃ w1, exec o w0 = Ok tt w1 ∧ Inv w1 ∧
                c_size (cache w1) = c_size (cache w0) ∧
                (lenOf w1 ≤ c_size (cache w1))%Z) as (w1 & -> & ? & Hs & ?).
      { destruct o; try done; simpl; unfold Add, bind, ret.
        - destruct (AddEx_within k v 0 w0) as (b & w1 & -> & ?); eauto.
        - destruct (AddEx_within k v ttl w0) as (b & w1 & -> & ?); eauto. }
      destruct (IH w1) as (w & ? & ? & ? & ?); try done.
      exists w. split_and!; try done. congruence. }
  destruct (Hrun (take n ops) (startWorld c t))
    as (w & Hr & Hinv & Hs & Hle).
  { by apply Forall_take. }
  { by eapply Inv_start. }
  { simpl. rewrite Hsize. unfold NewLRUWithExpire in Hnew.
    destruct (size <=? 0)%Z; [done|]. injection Hnew as <-.
    unfold lenOf, golist.Len. simpl. lia. }
  simpl in Hs. rewrite Hsize in Hs. rewrite Hs in Hle.
  exists w. split_and!; try done.
  intros k v ttl Hk Hfull.
  destruct (AddEx_insert_spec k v ttl w Hinv Hk) as [_ Hspec].
  rewrite Hs in Hspec.
  destruct (Z.ltb_spec size (lenOf w + 1)); [|lia].
  destruct Hspec as (kept & q & eq & Hl & _ & -> & _ & Hrm).
  eexists. split; [done|]. destruct Hrm as (_ & Hkept & _).
  unfold lenOf, golist.Len. rewrite Hkept.
  apply (f_equal length) in Hl. rewrite length_app in Hl. simpl in Hl. lia.
Qed.


(** C5: [RemoveOldest] removes elements from the back of the list, calling
    the callback for each, the back one first.  It stops at the first
    entry that is not expired when examined and returns its key and value
    with found = true, every element removed before it having been found
    expired; or it empties the list, every entry found expired, and
    returns found = false. *)
Theorem RemoveOldest_skips_expired (w : World) :
  Inv w →
  ∃ kept gone res w',
    RemoveOldest w = Ok res w' ∧ Inv w' ∧
    removedFromBack w w' kept gone ∧
    (returnedFresh w gone res ∨ returnedNothing w kept gone res).
Proof.
  intros Hinv. unfold RemoveOldest.
  apply RemoveOldest_loop_spec; [done|lia].
Qed.

(** C6: [AddEx] of a key that is not indexed allocates a new element for
    the entry, pushes it at the front of the list and indexes it.  When
    the list is then longer than the size, exactly the back element [q] of
    that list goes, expired or not: the callback is called once, with the
    key and value of its entry, and [AddEx] returns true.  Otherwise
    nothing is removed, the callback is not called and [AddEx] returns
    false. *)
Theorem AddEx_new_key (k : K) (v : V) (ttl : Duration) (w : World) :
  Inv w → items (cache w) !! k = None →
  let p := nextp w in
  let e := Entry k v (effectiveExpire ttl (c_expire (cache w))
                                      (clock (ticks w))) in
  ((c_size (cache w) < lenOf w + 1)%Z →
     ∃ kept q eq w',
       AddEx k v ttl w = Ok true w' ∧
       p :: evictList (cache w) = kept ++ [q] ∧
       <[p := e]> (heap w) !! q = Some eq ∧
       evictList (cache w') = kept ∧
       items (cache w') = delete (key eq) (<[k := p]> (items (cache w))) ∧
       heap w' = <[p := e]> (heap w) ∧
       evictions w' = evictions w ++ notified (cache w) [eq] ∧
       lenOf w' = lenOf w) ∧
  ((lenOf w + 1 ≤ c_size (cache w))%Z →
     ∃ w',
       AddEx k v ttl w = Ok false w' ∧
       evictList (cache w') = p :: evictList (cache w) ∧
       items (cache w') = <[k := p]> (items (cache w)) ∧
       heap w' = <[p := e]> (heap w) ∧
       evictions w' = evictions w ∧
       lenOf w' = (lenOf w + 1)%Z).
Proof.
  intros Hinv Hk p e.
  destruct (AddEx_insert_spec k v ttl w Hinv Hk) as [Hinv1 Hspec].
  destruct (Z.ltb_spec (c_size (cache w)) (lenOf w + 1)); split; try lia.
  - intros _. destruct Hspec as (kept & q & eq & Hl & Hq & -> & _ & Hrm).
    exists kept, q, eq, (without q eq (inserted k v ttl w)).
    destruct Hrm as (_ & Hkept & _).
    split_and!; try done.
    unfold lenOf, golist.Len. rewrite Hkept.
    apply (f_equal length) in Hl. rewrite length_app in Hl. simpl in Hl. lia.
  - intros _. exists (inserted k v ttl w). split_and!; try done.
    unfold lenOf, golist.Len. simpl. lia.
Qed.

(** C7: [AddEx] of a key that is indexed, at element [p], replaces the
    value and the expiration of the entry of [p] in place and moves [p] to
    the front of the list.  It returns false; the list keeps its elements
    and its length, the index is unchanged and the callback is not called.
    The expiration is the reading of the clock plus [ttl] when [ttl] is
    positive, else plus the default of the cache when that is positive,
    else none. *)
Theorem AddEx_existing_key (k : K) (v : V) (ttl : Duration) (p : ptr)
    (w : World) :
  Inv w → items (cache w) !! k = Some p →
  ∃ old w',
    heap w !! p = Some old ∧
    AddEx k v ttl w = Ok false w' ∧
    heap w' =
      <[p := Entry k v (effectiveExpire ttl (c_expire (cache w))
                                        (clock (ticks w)))]> (heap w) ∧
    evictList (cache w') = p :: golist.unlink p (evictList (cache w)) ∧
    evictList (cache w') ≡ₚ evictList (cache w) ∧
    items (cache w') = items (cache w) ∧
    evictions w' = evictions w ∧
    lenOf w' = lenOf w.
Proof.
  intros Hinv Hk.
  destruct (Inv_indexed w k p Hinv Hk) as (Hin & old & Hp & Hkey).
  exists old, (updated v ttl p old w).
  pose proof (inv_nodup w Hinv) as Hnd.
  split_and!; try done.
  - by apply AddEx_update_eq.
  - simpl. by rewrite Hkey.
  - simpl. by apply MoveToFront_elem.
  - simpl. by apply MoveToFront_perm.
  - unfold lenOf, golist.Len. simpl. by rewrite MoveToFront_perm.
Qed.

(** C8: [Get] of a key whose entry is expired at the clock reading taken
    returns not found and changes nothing but the clock reading count:
    the cache (list order, index, size), the entries and the callback log
    are as before, the key is still indexed, its element is still in the
    list, and [Len] is unchanged. *)
Theorem Get_expired_miss (k : K) (p : ptr) (e : entry) (w : World) :
  Inv w →
  items (cache w) !! k = Some p → heap w !! p = Some e →
  expiredAt e (clock (ticks w)) = true →
  ∃ w',
    Get k w = Ok (None, false) w' ∧
    cache w' = cache w ∧ heap w' = heap w ∧ evictions w' = evictions w ∧
    items (cache w') !! k = Some p ∧ p ∈ evictList (cache w') ∧
    lenOf w' = lenOf w.
Proof.
  intros Hinv Hk Hp Hexp. exists (afterCheck e w).
  rewrite (Get_indexed_eq k p e), Hexp by done.
  unfold lenOf.
  rewrite afterCheck_cache, afterCheck_heap, afterCheck_evictions.
  split_and!; try done. by apply (Inv_indexed w k p).
Qed.

(** C9 (as amended): for a requested size that is not negative, [Resize]
    removes from the back, calling the callback for each entry removed,
    the elements beyond the first [size] ones, returns their number, and
    sets the size.  When the list is longer than [size] its length
    becomes [size]; when it is not, nothing is removed and zero is
    returned. *)
Theorem Resize_nonnegative (size : Z) (w : World) :
  Inv w → (0 ≤ size < 2 ^ 63)%Z → (lenOf w < 2 ^ 63)%Z →
  ∃ w1,
    Resize size w = Ok (Z.max 0 (lenOf w - size)) (withSize size w1) ∧
    removedFromBack w w1 (take (Z.to_nat size) (evictList (cache w)))
                         (drop (Z.to_nat size) (evictList (cache w))) ∧
    Z.of_nat (length (drop (Z.to_nat size) (evictList (cache w)))) =
      Z.max 0 (lenOf w - size) ∧
    ((size < lenOf w)%Z → lenOf (withSize size w1) = size) ∧
    ((lenOf w ≤ size)%Z →
       evictList (cache w1) = evictList (cache w) ∧
       items (cache w1) = items (cache w) ∧
       evictions w1 = evictions w).
Proof.
  intros Hinv Hsize Hlen.
  destruct (Resize_eq size w Hinv) as (w1 & Hr & Hinv1 & Ht & Hrm).
  assert (0 ≤ lenOf w)%Z as Hlen0 by (unfold lenOf, golist.Len; lia).
  rewrite wrap64_small in Hr, Hrm by lia.
  set (l := evictList (cache w)) in *.
  assert (lenOf w = Z.of_nat (length l)) as Hlenl by done.
  assert (take (length l - Z.to_nat (Z.max 0 (lenOf w - size))) l =
          take (Z.to_nat size) l) as Htake.
  { destruct (decide (size < lenOf w)%Z).
    - f_equal. lia.
    - rewrite !take_ge; [done|lia..]. }
  assert (drop (length l - Z.to_nat (Z.max 0 (lenOf w - size))) l =
          drop (Z.to_nat size) l) as Hdrop.
  { destruct (decide (size < lenOf w)%Z).
    - f_equal. lia.
    - rewrite !drop_ge; [done|lia..]. }
  rewrite Htake, Hdrop in Hrm.
  exists w1. split_and!; try done.
  - rewrite length_drop. lia.
  - intros Hlt. destruct Hrm as (_ & Hkept & _).
    unfold lenOf, golist.Len. simpl. rewrite Hkept, length_take. lia.
  - intros Hge.
    destruct Hrm as (_ & Hkept & Hit & _ & _ & Hev & _ & _ & _ & Hloose).
    rewrite take_ge in Hkept, Hit by lia. rewrite drop_ge in Hev by lia.
    split_and!; try done.
    + apply (Inv_items_eq w w1); try done.
      intros k p. rewrite Hit.
      split; [tauto|]. intros Hk. split; [done|].
      by apply (Inv_indexed w k p).
    + rewrite Hev. unfold notified, entriesOf. simpl.
      destruct (onEvict (cache w)); by rewrite app_nil_r.
Qed.

(** C10: [Remove] of a key that is not in the index returns false and
    leaves the world as it was: the index, the list and its length, the
    entries and the callback log. *)
Theorem Remove_absent_unchanged (k : K) (w : World) :
  items (cache w) !! k = None → Remove k w = Ok false w.
Proof. apply Remove_absent_eq. Qed.

(** ** Further properties of the operations *)

Lemma entriesOf_full (w : World) (ps : list ptr) :
  Inv w → ps ⊆ evictList (cache w) →
  Forall2 (λ p e, heap w !! p = Some e) ps (entriesOf w ps).
Proof.
  intros Hinv. unfold entriesOf. induction ps as [|p ps IH]; intros Hsub.
  - constructor.
  - destruct (inv_list w Hinv p) as (e & Hp & _).
    { apply Hsub. apply list_elem_of_here. }
    simpl. rewrite Hp. simpl. constructor; [done|].
    apply IH. intros q Hq. apply Hsub. by apply list_elem_of_further.
Qed.

Lemma elem_of_entriesOf (w : World) (ps : list ptr) (e : entry) :
  e ∈ entriesOf w ps ↔ ∃ p, p ∈ ps ∧ heap w !! p = Some e.
Proof. unfold entriesOf. apply list_elem_of_omap. Qed.

Lemma length_entriesOf (w : World) (ps : list ptr) :
  Inv w → ps ⊆ evictList (cache w) → length (entriesOf w ps) = length ps.
Proof.
  intros Hinv Hsub. symmetry. eapply Forall2_length.
  by apply entriesOf_full.
Qed.

(** In a well-formed world no two elements of the list hold keys that
    are equal under [==]. *)
Lemma Inv_keys_distinct (w : World) (ps : list ptr) :
  Inv w → ps ⊆ evictList (cache w) → NoDup ps →
  goDistinct (key <$> entriesOf w ps).
Proof.
  intros Hinv. unfold entriesOf.
  induction ps as [|p ps IH]; intros Hsub Hnd; [done|].
  apply NoDup_cons in Hnd as [Hp Hnd].
  destruct (inv_list w Hinv p) as (e & He & Hk).
  { apply Hsub. apply list_elem_of_here. }
  simpl. rewrite He. simpl. split.
  - intros k' (e' & -> & Hin)%list_elem_of_fmap.
    apply list_elem_of_omap in Hin as (q & Hq & He').
    destruct (inv_list w Hinv q) as (e2 & He2 & Hk2).
    { apply Hsub. by apply list_elem_of_further. }
    assert (e2 = e') as -> by congruence.
    destruct (goEq (key e) (key e')) eqn:Heq; [|done].
    apply goEq_true in Heq as [Hs Hkk].
    apply storedAt_lookup in Hk; [|done].
    apply storedAt_lookup in Hk2; [|by rewrite <- Hkk].
    rewrite <- Hkk in Hk2. assert (p = q) as -> by congruence. done.
  - apply IH; [|done]. intros q Hq. apply Hsub. by apply list_elem_of_further.
Qed.

(** X15: in every world reached from a new cache, every element of the
    list holds an entry and no two of them hold keys that are equal under
    Go's [==]; when every key in the list is equal to itself, no key
    occurs twice. *)
Theorem reachable_keys_distinct (w : World) :
  reachable w →
  length (entriesOf w (evictList (cache w))) = length (evictList (cache w)) ∧
  goDistinct (key <$> entriesOf w (evictList (cache w))) ∧
  ((∀ k, k ∈ key <$> entriesOf w (evictList (cache w)) → selfEq k = true) →
   NoDup (key <$> entriesOf w (evictList (cache w)))).
Proof.
  intros Hinv%reachable_Inv.
  assert (goDistinct (key <$> entriesOf w (evictList (cache w)))) as Hd
    by (apply Inv_keys_distinct; [done|done|apply Hinv]).
  split_and!.
  - by apply length_entriesOf.
  - done.
  - intros Hself. by apply goDistinct_NoDup.
Qed.

(** X2: [Get] of a key whose entry is not expired returns its value with
    found = true and moves its element to the front of the list; the index,
    the entries, the size, the length and the callback log are unchanged. *)
Theorem Get_hit_promotes (k : K) (p : ptr) (e : entry) (w : World) :
  Inv w →
  items (cache w) !! k = Some p → heap w !! p = Some e →
  expiredAt e (clock (ticks w)) = false →
  ∃ w',
    Get k w = Ok (Some (value e), true) w' ∧
    evictList (cache w') = p :: golist.unlink p (evictList (cache w)) ∧
    items (cache w') = items (cache w) ∧
    c_size (cache w') = c_size (cache w) ∧
    heap w' = heap w ∧ evictions w' = evictions w ∧
    lenOf w' = lenOf w.
Proof.
  intros Hinv Hk Hp Hexp. exists (promoted p (afterCheck e w)).
  rewrite (Get_indexed_eq k p e), Hexp by done.
  destruct (Inv_indexed w k p Hinv Hk) as (Hin & _).
  pose proof (inv_nodup w Hinv) as Hnd.
  unfold lenOf, golist.Len. simpl.
  rewrite !afterCheck_cache, afterCheck_heap, afterCheck_evictions.
  split_and!; try done.
  - by apply MoveToFront_elem.
  - by rewrite MoveToFront_perm.
Qed.

(** X5: [Remove] of an indexed key returns true, takes its element out of
    the list and its key out of the index, and calls the callback once with
    the key and the value, whether the entry is expired or not; the length
    drops by one.  After it, [Get] of the key misses and a second [Remove]
    returns false, both without any change. *)
Theorem Remove_present (k : K) (p : ptr) (w : World) :
  Inv w → items (cache w) !! k = Some p →
  ∃ e w',
    heap w !! p = Some e ∧ key e = k ∧
    Remove k w = Ok true w' ∧
    evictList (cache w') = golist.unlink p (evictList (cache w)) ∧
    items (cache w') = delete k (items (cache w)) ∧
    evictions w' = evictions w ++ notified (cache w) [e] ∧
    lenOf w' = (lenOf w - 1)%Z ∧
    Get k w' = Ok (None, false) w' ∧
    Remove k w' = Ok false w'.
Proof.
  intros Hinv Hk.
  destruct (Inv_indexed w k p Hinv Hk) as (Hin & e & Hp & Hkey).
  exists e, (without p e w). rewrite (Remove_indexed_eq k p e) by done.
  assert (items (cache (without p e w)) !! k = None) as Hgone.
  { simpl. rewrite Hkey. apply golookup_delete_eq. }
  split_and!; try done.
  - simpl. by rewrite Hkey.
  - unfold lenOf, golist.Len. simpl.
    pose proof (length_unlink p _ (inv_nodup w Hinv) Hin). lia.
  - by apply Get_absent_eq.
  - by apply Remove_absent_eq.
Qed.

(** X6: [Peek] and [Contains] agree and change nothing but the count of
    clock readings: both find the key exactly when it is indexed and its
    entry is not expired at the reading taken, [Peek] then returning the
    value; the list order, the index, the entries and the callback log are
    as before. *)
Theorem Peek_Contains_agree (k : K) (w : World) :
  Inv w →
  ∃ ov b w',
    Peek k w = Ok (ov, b) w' ∧ Contains k w = Ok b w' ∧
    sameButClock w w' ∧
    (b = true ↔
     ∃ p e, items (cache w) !! k = Some p ∧ heap w !! p = Some e ∧
            expiredAt e (clock (ticks w)) = false ∧ ov = Some (value e)).
Proof.
  intros Hinv. unfold Peek, Contains, bind, getCache.
  destruct (items (cache w) !! k) as [p|] eqn:Hk.
  - destruct (Inv_indexed w k p Hinv Hk) as (_ & e & Hp & _).
    unfold deref. rewrite Hp, IsExpired_eq. unfold ret.
    destruct (expiredAt e (clock (ticks w))) eqn:Hexp.
    + exists None, false, (afterCheck e w).
      split_and!; [done|done|apply sameButClock_afterCheck|].
      split; [done|]. intros (p' & e' & Hp' & He' & Hx & _).
      assert (e' = e) as -> by congruence. congruence.
    + exists (Some (value e)), true, (afterCheck e w).
      split_and!; [done|done|apply sameButClock_afterCheck|].
      split; [|done]. intros _. by exists p, e.
  - exists None, false, w. unfold ret.
    split_and!; [done|done|apply sameButClock_refl|].
    split; [done|]. by intros (p' & e' & Hp' & _).
Qed.

(** After [AddEx] in a cache whose size is at least one, a key that is
    equal to itself is indexed at an element that holds the entry just
    put. *)
Lemma AddEx_indexed (k : K) (v : V) (ttl : Duration) (w : World) :
  Inv w → (1 ≤ c_size (cache w))%Z → selfEq k = true →
  ∃ b w1 p,
    AddEx k v ttl w = Ok b w1 ∧ Inv w1 ∧
    items (cache w1) !! k = Some p ∧
    heap w1 !! p = Some (Entry k v (expiryOf ttl w)).
Proof.
  intros Hinv Hsize Hself. destruct (items (cache w) !! k) as [p|] eqn:Hk.
  - destruct (Inv_indexed w k p Hinv Hk) as (_ & old & Hp & Hkey).
    exists false, (updated v ttl p old w), p.
    split_and!; [by apply AddEx_update_eq|by eapply Inv_updated|done|].
    simpl. by rewrite lookup_insert_eq, Hkey.
  - destruct (AddEx_insert_spec k v ttl w Hinv Hk) as [Hinv1 Hspec].
    destruct (Z.ltb_spec (c_size (cache w)) (lenOf w + 1)).
    + destruct Hspec as (kept & q & eq & Hl & Hq & Hr & Hinv' & Hrm).
      exists true, (without q eq (inserted k v ttl w)), (nextp w).
      split_and!; [done|done| |].
      * destruct Hrm as (_ & _ & Hit & _). apply Hit. simpl.
        split; [by apply golookup_insert_eq|].
        destruct kept as [|x kept].
        { simpl in Hl. injection Hl as _ Hnil.
          unfold lenOf, golist.Len in *. rewrite Hnil in *. simpl in *. lia. }
        injection Hl as -> _. apply list_elem_of_here.
      * simpl. apply lookup_insert_eq.
    + exists false, (inserted k v ttl w), (nextp w).
      split_and!; [done|done| |]; simpl;
        [by apply golookup_insert_eq|apply lookup_insert_eq].
Qed.



(** X16: [AddEx] of a key does not touch the entries of the other keys: a
    key other than the one put that is indexed afterwards was indexed
    before, at the same element, which holds the same entry. *)
Theorem AddEx_other_keys (k k' : K) (v : V) (ttl : Duration) (b : bool)
    (p' : ptr) (w w' : World) :
  Inv w → AddEx k v ttl w = Ok b w' → k' ≠ k →
  items (cache w') !! k' = Some p' →
  items (cache w) !! k' = Some p' ∧ heap w' !! p' = heap w !! p'.
Proof.
  intros Hinv Hr Hne Hk'. destruct (items (cache w) !! k) as [p|] eqn:Hk.
  - destruct (Inv_indexed w k p Hinv Hk) as (_ & old & Hp & Hkey).
    rewrite (AddEx_update_eq k v ttl p old) in Hr by done.
    injection Hr as <- <-. simpl in *. split; [done|].
    apply lookup_insert_ne. intros ->.
    destruct (Inv_indexed w k' p' Hinv Hk') as (_ & e' & He' & Hkey').
    congruence.
  - destruct (AddEx_insert_spec k v ttl w Hinv Hk) as [Hinv1 Hspec].
    assert (items (cache (inserted k v ttl w)) !! k' = Some p' →
            items (cache w) !! k' = Some p' ∧
            heap (inserted k v ttl w) !! p' = heap w !! p') as Hins.
    { simpl. rewrite golookup_insert_ne by (by intros ->).
      intros Hlk. split; [done|].
      apply lookup_insert_ne. intros <-.
      destruct (Inv_indexed w k' _ Hinv Hlk) as (Hin & _).
      by apply (Inv_fresh w Hinv). }
    destruct (c_size (cache w) <? lenOf w + 1)%Z.
    + destruct Hspec as (kept & q & eq & Hl & Hq & Hr' & Hinv' & Hrm).
      rewrite Hr' in Hr. injection Hr as <- <-.
      destruct Hrm as (_ & _ & Hit & Hh & _).
      apply Hit in Hk' as [Hk' _]. rewrite Hh. by apply Hins.
    + rewrite Hspec in Hr. injection Hr as <- <-. by apply Hins.
Qed.

(** X12: a key just read by a successful [Get] is not the victim of the
    next insertion: in a cache whose size is at least two, after a [Get]
    that finds key [k], [AddEx] of a key that is not indexed leaves [k]
    indexed at its element. *)
Theorem Get_hit_survives_insertion (k k' : K) (v' : V) (ttl : Duration)
    (p : ptr) (e : entry) (w : World) :
  Inv w →
  items (cache w) !! k = Some p → heap w !! p = Some e →
  expiredAt e (clock (ticks w)) = false →
  (2 ≤ c_size (cache w))%Z →
  items (cache w) !! k' = None →
  ∃ w1 b w2,
    Get k w = Ok (Some (value e), true) w1 ∧
    AddEx k' v' ttl w1 = Ok b w2 ∧
    items (cache w2) !! k = Some p.
Proof.
  intros Hinv Hk Hp Hexp Hsize Hk'.
  exists (promoted p (afterCheck e w)).
  rewrite (Get_indexed_eq k p e), Hexp by done.
  set (w1 := promoted p (afterCheck e w)).
  assert (Inv w1) as Hinv1 by by apply Inv_promoted, Inv_afterCheck.
  destruct (Inv_indexed w k p Hinv Hk) as (Hin & _).
  assert (evictList (cache w1) = p :: golist.unlink p (evictList (cache w)))
    as Hl1.
  { simpl. rewrite afterCheck_cache. apply MoveToFront_elem; [apply Hinv|done]. }
  assert (items (cache w1) = items (cache w)) as Hit1.
  { simpl. by rewrite afterCheck_cache. }
  assert (c_size (cache w1) = c_size (cache w)) as Hs1.
  { simpl. by rewrite afterCheck_cache. }
  assert (k ≠ k') as Hne by congruence.
  assert (items (cache w1) !! k' = None) as Hk1' by by rewrite Hit1.
  destruct (AddEx_insert_spec k' v' ttl w1 Hinv1 Hk1') as [Hinv2 Hspec].
  assert (items (cache (inserted k' v' ttl w1)) !! k = Some p) as Hins.
  { simpl. rewrite afterCheck_cache.
    by rewrite golookup_insert_ne by (by intros ->). }
  destruct (Z.ltb_spec (c_size (cache w1)) (lenOf w1 + 1)).
  - destruct Hspec as (kept & q & eq & Hl & Hq & Hr & Hinv' & Hrm).
    eexists _, _. split_and!; [done|exact Hr|].
    destruct Hrm as (_ & _ & Hit & _). apply Hit. split; [done|].
    rewrite Hl1 in Hl.
    assert (p ∈ kept ++ [q]) as Hpin.
    { rewrite <- Hl. apply list_elem_of_further, list_elem_of_here. }
    apply elem_of_app in Hpin as [?|Hpq]; [done|].
    apply list_elem_of_singleton in Hpq as ->. exfalso.
    assert (golist.unlink q (evictList (cache w)) ≠ []) as Hrest.
    { intros Hnil. unfold lenOf, golist.Len in *. rewrite Hl1, Hnil in *.
      simpl in *. lia. }
    assert (last (nextp w1 :: q :: golist.unlink q (evictList (cache w)))
            = Some q) as Hlast by (rewrite Hl; apply last_snoc).
    rewrite !last_cons in Hlast.
    destruct (last (golist.unlink q (evictList (cache w)))) as [z|] eqn:Hz.
    + injection Hlast as ->. apply last_Some_elem_of in Hz.
      apply elem_of_unlink in Hz as [_ Hz]. done.
    + by apply last_None in Hz.
  - rewrite Hspec. by eexists _, _.
Qed.

Lemma RemoveOldest_fresh_eq (w : World) (l : list ptr) (p : ptr) (e : entry) :
  evictList (cache w) = l ++ [p] → heap w !! p = Some e →
  expiredAt e (clock (ticks w)) = false →
  RemoveOldest w =
    Ok (Some (key e), Some (value e), true) (afterCheck e (without p e w)).
Proof.
  intros Hl Hp Hexp. unfold RemoveOldest. simpl.
  unfold bind at 1. unfold getCache at 1. rewrite Hl, Back_snoc.
  unfold bind at 1. rewrite (removeElement_eq p e) by done.
  unfold bind at 1. unfold deref at 1.
  replace (heap (without p e w)) with (heap w) by done. rewrite Hp.
  unfold bind at 1. rewrite IsExpired_eq.
  replace (ticks (without p e w)) with (ticks w) by done. by rewrite Hexp.
Qed.


(** X14: for a negative requested size (with no overflow of the
    subtraction) [Resize] removes every element, the back one first, and
    returns the length minus the size, which is more than the number of
    elements it removed. *)
Theorem Resize_negative_empties (size : Z) (w : World) :
  Inv w → (size < 0)%Z → (lenOf w - size < 2 ^ 63)%Z →
  ∃ w1,
    Resize size w = Ok (lenOf w - size)%Z (withSize size w1) ∧
    removedFromBack w w1 [] (evictList (cache w)) ∧
    (lenOf w < lenOf w - size)%Z.
Proof.
  intros Hinv Hneg Hbound.
  destruct (Resize_eq size w Hinv) as (w1 & Hr & Hinv1 & Ht & Hrm).
  assert (0 ≤ lenOf w)%Z as Hlen0 by (unfold lenOf, golist.Len; lia).
  rewrite wrap64_small in Hr, Hrm by lia.
  replace (Z.max 0 (lenOf w - size)) with (lenOf w - size)%Z in Hr, Hrm by lia.
  replace (length (evictList (cache w)) - Z.to_nat (lenOf w - size)) with 0
    in Hrm by (unfold lenOf, golist.Len; lia).
  rewrite take_0, drop_0 in Hrm.
  exists w1. split_and!; [done|done|lia].
Qed.

(** ** Purge, with the calls it makes *)

(** The elements the index points to are those of the list, and
    elements that have left the list, no more of them than the index has
    pairs under keys unequal to themselves. *)
Lemma Inv_range_perm (w : World) :
  Inv w →
  ∃ stale,
    (gomap_range (items (cache w))).*2 ≡ₚ evictList (cache w) ++ stale ∧
    length stale ≤ length (loose (items (cache w))).
Proof.
  intros Hinv.
  assert (evictList (cache w) ⊆+ (gomap_range (items (cache w))).*2) as Hsub.
  { apply NoDup_submseteq; [apply Hinv|]. intros p Hin.
    destruct (inv_list w Hinv p Hin) as (e & Hp & Hst).
    apply list_elem_of_fmap. exists (key e, p). split; [done|].
    by apply storedAt_range. }
  apply submseteq_Permutation in Hsub as [stale Hperm].
  exists stale. split; [done|].
  assert ((map_to_list (regular (items (cache w)))).*2
            ⊆+ evictList (cache w)) as Hreg.
  { apply NoDup_submseteq.
    - apply NoDup_fmap_2_strong; [|apply NoDup_map_to_list].
      intros [k1 p1] [k2 p2] Hin1%elem_of_map_to_list
        Hin2%elem_of_map_to_list Heq. simpl in *. subst p2.
      assert (items (cache w) !! k1 = Some p1) as Hk1.
      { apply golookup_Some. split; [|done]. by eapply inv_regular. }
      assert (items (cache w) !! k2 = Some p1) as Hk2.
      { apply golookup_Some. split; [|done]. by eapply inv_regular. }
      destruct (Inv_indexed w k1 p1 Hinv Hk1) as (_ & e & Hp & Hkey).
      by rewrite <- Hkey, (Inv_key w k2 p1 e).
    - intros p ([k q] & -> & Hin%elem_of_map_to_list)%list_elem_of_fmap.
      assert (items (cache w) !! k = Some q) as Hk.
      { apply golookup_Some. split; [|done]. by eapply inv_regular. }
      by apply (Inv_indexed w k q). }
  apply submseteq_length in Hreg. apply Permutation_length in Hperm.
  unfold gomap_range in Hperm.
  rewrite length_fmap, !length_app in Hperm. rewrite length_fmap in Hreg.
  lia.
Qed.

Lemma Purge_calls (w : World) (kvs : list (K * ptr)) :
  (∀ k p, (k, p) ∈ kvs → ∃ e, heap w !! p = Some e ∧ key e = k) →
  omap (λ kp, (λ e, (kp.1, value e)) <$> heap w !! kp.2) kvs =
  pairsOf w kvs.*2.
Proof.
  unfold pairsOf, entriesOf. induction kvs as [|[k p] kvs IH]; intros Hall.
  - done.
  - destruct (Hall k p) as (e & Hp & Hk); [apply list_elem_of_here|].
    simpl. rewrite Hp. simpl. rewrite Hk. f_equal. apply IH.
    intros k' p' Hin. apply Hall. by apply list_elem_of_further.
Qed.

(** With an empty list and no pair under a key unequal to itself, the
    index is empty. *)
Lemma Inv_empty (w : World) :
  Inv w → evictList (cache w) = [] → loose (items (cache w)) = [] →
  items (cache w) = ∅.
Proof.
  intros Hinv Hnil Hloose.
  assert (regular (items (cache w)) = ∅) as Hreg.
  { apply map_eq. intros k. rewrite lookup_empty.
    destruct (regular (items (cache w)) !! k) as [p|] eqn:Hk; [|done].
    assert (items (cache w) !! k = Some p) as Hk'.
    { apply golookup_Some. split; [|done]. by eapply inv_regular. }
    destruct (Inv_indexed w k p Hinv Hk') as (Hin & _).
    rewrite Hnil in Hin. by apply elem_of_nil in Hin. }
  destruct (items (cache w)). simpl in *. by subst.
Qed.

Lemma Purge_empty_eq (w : World) :
  Inv w → evictList (cache w) = [] → loose (items (cache w)) = [] →
  Purge w = Ok tt w.
Proof.
  intros Hinv Hnil Hloose.
  pose proof (Inv_empty w Hinv Hnil Hloose) as Hempty.
  unfold Purge, bind, getCache. rewrite Hempty. unfold gomap_range. simpl.
  rewrite map_to_list_empty. simpl.
  unfold setList, bind, getCache, setCache, golist.Init.
  destruct w as [[sz l it dx cb] hp nx lg tk]. simpl in *. by subst.
Qed.


(** ** The size bound under every operation *)

Lemma within_sameButClock (w w' : World) :
  sameButClock w w' → within w → within w'.
Proof.
  intros Hs [Hinv Hle]. split; [by eapply Inv_sameButClock|].
  destruct Hs as (Hc & _). unfold lenOf. by rewrite Hc.
Qed.

Lemma within_removedFromBack (w w' : World) (kept gone : list ptr) :
  removedFromBack w w' kept gone → Inv w' → within w → within w'.
Proof.
  intros (Hl & Hkept & _ & _ & _ & _ & Hs & _) Hinv' [_ Hle].
  split; [done|]. unfold lenOf, golist.Len in *.
  rewrite Hs, Hkept. rewrite Hl, length_app in Hle. lia.
Qed.

Lemma exec_within (o : op) (w : World) :
  within w → sizeInRange o = true → within (worldOf (exec o w)).
Proof.
  intros Hw Ho. pose proof Hw as [Hinv Hle].
  destruct o; simpl; unfold Add, bind, ret.
  - destruct (AddEx_within k v 0 w) as (b & w' & -> & ? & Hs & ?);
      [done|lia|]. simpl. split; [done|]. lia.
  - destruct (AddEx_within k v ttl w) as (b & w' & -> & ? & Hs & ?);
      [done|lia|]. simpl. split; [done|]. lia.
  - destruct (items (cache w) !! k) as [p|] eqn:Hk.
    + destruct (Inv_indexed w k p Hinv Hk) as (_ & e & Hp & _).
      rewrite (Get_indexed_eq k p e) by done.
      pose proof (within_sameButClock _ _ (sameButClock_afterCheck e w) Hw)
        as [Hinv1 Hle1].
      destruct (expiredAt e (clock (ticks w))); simpl; [done|].
      split; [by apply Inv_promoted|].
      unfold lenOf, golist.Len in *. simpl.
      by rewrite (MoveToFront_perm p _ (inv_nodup _ Hinv1)).
    + by rewrite Get_absent_eq.
  - destruct (Contains_Inv k w Hinv) as (b & w' & -> & Hs).
    by eapply within_sameButClock.
  - destruct (Peek_Inv k w Hinv) as (b & w' & -> & Hs).
    by eapply within_sameButClock.
  - destruct (items (cache w) !! k) as [p|] eqn:Hk.
    + destruct (Inv_indexed w k p Hinv Hk) as (Hin & e & Hp & _).
      rewrite (Remove_indexed_eq k p e) by done. simpl.
      split; [by apply Inv_without|].
      unfold lenOf, golist.Len in *. simpl.
      pose proof (length_unlink p _ (inv_nodup w Hinv) Hin). lia.
    + by rewrite Remove_absent_eq.
  - unfold RemoveOldest.
    destruct (RemoveOldest_loop_spec (S (length (evictList (cache w)))) w)
      as (kept & gone & res & w' & -> & Hinv' & Hrm & _); [done|lia|].
    by eapply within_removedFromBack.
  - pose proof (GetOldest_Inv w Hinv) as Hs.
    destruct (GetOldest w) as [r w'|f w']; by eapply within_sameButClock.
  - destruct (Keys_Inv w Hinv) as (b & w' & -> & Hs).
    by eapply within_sameButClock.
  - done.
  - simpl in Ho. apply andb_prop in Ho as [Hlo Hhi].
    apply Z.leb_le in Hlo. apply Z.ltb_lt in Hhi.
    destruct (Resize_eq size w Hinv) as (w1 & -> & Hinv1 & _ & Hrm).
    assert (0 ≤ lenOf w)%Z by (unfold lenOf, golist.Len; lia).
    rewrite wrap64_small in Hrm by lia.
    destruct Hrm as (_ & Hkept & _). simpl.
    split; [by apply Inv_withSize|].
    unfold lenOf, golist.Len in *. simpl. rewrite Hkept, length_take. lia.
  - destruct (Purge_eq w Hinv)
      as (w' & Hr & Hinv' & Hl & _ & _ & _ & _ & Hs & _).
    rewrite Hr. simpl. split; [done|].
    unfold lenOf, golist.Len in *. rewrite Hl, Hs. simpl. lia.
Qed.

(** X13: from a cache built with a positive size, whatever public
    operations are called, in any order and also after a panic, the length
    of the list never exceeds the size of the cache, as long as the sizes
    asked of [Resize] are not negative. *)
Theorem capacity_kept_by_all_operations (size : Z) (dflt : Duration)
    (cb : bool) (c : LRU) (t : nat) (ops : list op) :
  NewLRUWithExpire size dflt cb = inr c → (size < 2 ^ 63)%Z →
  Forall (λ o, sizeInRange o = true) ops →
  (lenOf (after ops (startWorld c t))
   ≤ c_size (cache (after ops (startWorld c t))))%Z.
Proof.
  intros Hnew Hsize Hops.
  assert (within (startWorld c t)) as Hstart.
  { split; [by eapply Inv_start|]. unfold NewLRUWithExpire in Hnew.
    destruct (Z.leb_spec size 0); [done|]. injection Hnew as <-.
    unfold lenOf, golist.Len. simpl. lia. }
  assert (∀ w, within w → within (after ops w)) as Hall.
  { induction Hops as [|o ops Ho Hops IH]; intros w Hw; [done|].
    simpl. apply IH. by apply exec_within. }
  by destruct (Hall _ Hstart) as [_ [? _]].
Qed.

(** ** Keys *)

Lemma Keys_loop_sublist (ents : list ptr) (acc : list K) (w : World) :
  (∀ p, p ∈ ents → is_Some (heap w !! p)) →
  ∃ ks w', Keys_loop ents acc w = Ok (acc ++ ks) w' ∧ sameButClock w w' ∧
    ks `sublist_of` (key <$> entriesOf w ents).
Proof.
  revert acc w. induction ents as [|p ents IH]; intros acc w Hall; simpl.
  - exists [], w. rewrite app_nil_r.
    split_and!; [done|apply sameButClock_refl|done].
  - destruct (Hall p) as [e Hp]; [apply list_elem_of_here|].
    unfold bind at 1. unfold deref at 1. rewrite Hp.
    unfold bind at 1. rewrite IsExpired_eq.
    pose proof (sameButClock_afterCheck e w) as Hs.
    destruct (IH (if expiredAt e (clock (ticks w)) then acc
                  else acc ++ [key e]) (afterCheck e w))
      as (ks & w' & Hr & Hs' & Hsub).
    { intros q Hq. rewrite afterCheck_heap. apply Hall.
      by apply list_elem_of_further. }
    rewrite (entriesOf_same w (afterCheck e w)) in Hsub
      by apply afterCheck_heap.
    unfold entriesOf in *. simpl.
    destruct (expiredAt e (clock (ticks w))).
    + exists ks, w'. split_and!; [done|by eapply sameButClock_trans|].
      by apply sublist_cons.
    + exists (key e :: ks), w'. rewrite <- app_assoc in Hr.
      split_and!; [done|by eapply sameButClock_trans|].
      by apply sublist_skip.
Qed.

Lemma Keys_loop_all (ents : list ptr) (acc : list K) (w : World) :
  (∀ p, p ∈ ents → ∃ e, heap w !! p = Some e ∧ expire e = None) →
  Keys_loop ents acc w = Ok (acc ++ (key <$> entriesOf w ents)) w.
Proof.
  revert acc. induction ents as [|p ents IH]; intros acc Hall; simpl.
  - by rewrite app_nil_r.
  - destruct (Hall p) as (e & Hp & Hnone); [apply list_elem_of_here|].
    unfold bind at 1. unfold deref at 1. rewrite Hp.
    unfold bind at 1. unfold IsExpired. rewrite Hnone. unfold ret at 1.
    rewrite IH.
    + unfold entriesOf. simpl. by rewrite <- app_assoc.
    + intros q Hq. apply Hall. by apply list_elem_of_further.
Qed.

(** X7: [Keys] changes nothing but the count of clock readings.  The keys
    it returns are keys of the index, held by elements of the list, no two
    of them equal under Go's [==], in the order of the list from the back
    to the front (oldest first); entries may be left out (the expired
    ones) but none is added or moved.  A returned key that is equal to
    itself is found by a lookup, and when all of them are, no key occurs
    twice. *)
Theorem Keys_oldest_first (w : World) :
  Inv w →
  ∃ ks w',
    Keys w = Ok ks w' ∧ sameButClock w w' ∧
    ks `sublist_of` (key <$> entriesOf w (reverse (evictList (cache w)))) ∧
    goDistinct ks ∧
    ((∀ k, k ∈ ks → selfEq k = true) → NoDup ks) ∧
    (∀ k, k ∈ ks →
       ∃ p, p ∈ evictList (cache w) ∧
            (k, p) ∈ gomap_range (items (cache w)) ∧
            (selfEq k = true → items (cache w) !! k = Some p)) ∧
    (Z.of_nat (length ks) ≤ lenOf w)%Z.
Proof.
  intros Hinv. unfold Keys, bind, getCache.
  assert (reverse (evictList (cache w)) ⊆ evictList (cache w)) as Hsubset.
  { intros p Hp. by rewrite elem_of_reverse in Hp. }
  destruct (Keys_loop_sublist (reverse (evictList (cache w))) [] w)
    as (ks & w' & Hr & Hs & Hsub).
  { intros p Hp. destruct (inv_list w Hinv p) as (e & He & _); eauto. }
  assert (goDistinct ks) as Hd.
  { eapply goDistinct_sublist; [exact Hsub|].
    apply Inv_keys_distinct; [done|done|].
    rewrite reverse_Permutation. apply Hinv. }
  exists ks, w'. split_and!; try done.
  - intros Hself. by apply goDistinct_NoDup.
  - intros k Hk.
    eapply elem_of_sublist in Hk; [|exact Hsub].
    apply list_elem_of_fmap in Hk as (e & -> & He).
    apply elem_of_entriesOf in He as (p & Hp & He).
    apply Hsubset in Hp.
    destruct (inv_list w Hinv p Hp) as (e' & He' & Hst).
    assert (e' = e) as -> by congruence.
    exists p. split_and!; [done|by apply storedAt_range|].
    intros Hself. by apply storedAt_lookup.
  - apply sublist_length in Hsub.
    rewrite length_fmap, length_entriesOf, length_reverse in Hsub by done.
    unfold lenOf, golist.Len. lia.
Qed.

(** X8: when no entry of the cache has a deadline, [Keys] returns the key
    of every element of the list, from the back to the front, and leaves
    the world as it is. *)
Theorem Keys_without_deadlines (w : World) :
  Inv w →
  (∀ p e, p ∈ evictList (cache w) → heap w !! p = Some e →
          expire e = None) →
  Keys w = Ok (key <$> entriesOf w (reverse (evictList (cache w)))) w ∧
  length (entriesOf w (reverse (evictList (cache w)))) =
    length (evictList (cache w)).
Proof.
  intros Hinv Hnone. split.
  - unfold Keys, bind, getCache. rewrite Keys_loop_all; [done|].
    intros p Hp. rewrite elem_of_reverse in Hp.
    destruct (inv_list w Hinv p Hp) as (e & He & _). exists e.
    split; [done|]. by eapply Hnone.
  - rewrite length_entriesOf, length_reverse; [done..|].
    intros p Hp. by rewrite elem_of_reverse in Hp.
Qed.

(** ** Eviction order *)

Lemma entriesOf_insert_fresh (w w' : World) (p : ptr) (e : entry)
    (ps : list ptr) :
  heap w' = <[p := e]> (heap w) → p ∉ ps → entriesOf w' ps = entriesOf w ps.
Proof.
  intros Hh. unfold entriesOf. rewrite Hh.
  induction ps as [|q ps IH]; intros Hp; [done|].
  apply not_elem_of_cons in Hp as [Hne Hp]. simpl.
  rewrite lookup_insert_ne by done.
  destruct (heap w !! q); [f_equal|]; by apply IH.
Qed.

Lemma pairsOf_inserted (k : K) (v : V) (ttl : Duration) (w : World) :
  Inv w →
  pairsOf (inserted k v ttl w) (evictList (cache (inserted k v ttl w))) =
  (k, v) :: pairsOf w (evictList (cache w)).
Proof.
  intros Hinv. unfold pairsOf. simpl. unfold golist.PushFront.
  unfold entriesOf at 1. simpl. rewrite lookup_insert_eq. simpl.
  f_equal. f_equal.
  apply (entriesOf_insert_fresh w (inserted k v ttl w) (nextp w)
           (Entry k v (expiryOf ttl w))); [done|].
  by apply Inv_fresh.
Qed.

Lemma holdsNewest_Add (n : nat) (cb : bool) (kvs : list (K * V)) (k : K)
    (v : V) (w : World) :
  1 ≤ n → holdsNewest n cb kvs w → k ∉ kvs.*1 →
  ∃ b w', AddEx k v 0 w = Ok b w' ∧ holdsNewest n cb (kvs ++ [(k, v)]) w'.
Proof.
  intros Hn (Hinv & Hsize & Hcb & Hpairs & Hev) Hnew.
  set (d := length kvs - n) in *.
  assert (length (evictList (cache w)) = length kvs - d) as Hlen.
  { rewrite <- (length_entriesOf w) by done.
    rewrite <- (length_fmap (λ e, (key e, value e))).
    fold (pairsOf w (evictList (cache w))).
    by rewrite Hpairs, length_reverse, length_drop. }
  assert (items (cache w) !! k = None) as Hk.
  { destruct (items (cache w) !! k) as [p|] eqn:Hk; [|done].
    destruct (Inv_indexed w k p Hinv Hk) as (Hin & e & Hp & Hkey).
    exfalso. apply Hnew. apply list_elem_of_fmap. exists (k, value e).
    split; [done|].
    assert ((k, value e) ∈ pairsOf w (evictList (cache w))) as Hpin.
    { unfold pairsOf. apply list_elem_of_fmap. exists e.
      split; [by rewrite Hkey|]. apply elem_of_entriesOf. eauto. }
    rewrite Hpairs, elem_of_reverse in Hpin.
    eapply elem_of_sublist; [exact Hpin|apply sublist_drop]. }
  destruct (AddEx_insert_spec k v 0 w Hinv Hk) as [Hinv1 Hspec].
  pose proof (pairsOf_inserted k v 0 w Hinv) as Hpairs1.
  rewrite Hpairs in Hpairs1.
  unfold holdsNewest. rewrite length_app. simpl.
  destruct (Z.ltb_spec (c_size (cache w)) (lenOf w + 1)) as [Hfull|Hroom];
    unfold lenOf, golist.Len in *.
  - destruct Hspec as (kept & q & eq & Hl & Hq & Hr & Hinv' & Hrm).
    assert (n ≤ length kvs ∧ d < length kvs) as [Hge Hd] by lia.
    replace (length kvs + 1 - n) with (S d) by lia.
    destruct (lookup_lt_is_Some_2 kvs d Hd) as [x Hx].
    destruct Hrm as (Hl' & Hkept & _ & Hh & _ & Hev' & Hs' & _ & Hcb' & _).
    simpl in Hl'.
    assert (pairsOf (inserted k v 0 w) kept ++ [(key eq, value eq)] =
            ((k, v) :: reverse (drop (S d) kvs)) ++ [x]) as Happ.
    { rewrite (drop_S _ _ _ Hx), reverse_cons in Hpairs1.
      rewrite <- app_comm_cons, <- Hpairs1.
      change (evictList (cache (inserted k v 0 w)))
        with (nextp w :: evictList (cache w)).
      rewrite Hl. unfold pairsOf. rewrite entriesOf_app, fmap_app.
      by rewrite (entriesOf_one _ q eq). }
    apply app_inj_tail in Happ as [Hkeptp Hx'].
    exists true, (without q eq (inserted k v 0 w)).
    split; [done|]. split_and!; try done.
    + unfold pairsOf in *. rewrite Hkept.
      rewrite (entriesOf_same (inserted k v 0 w)) by done.
      rewrite Hkeptp, drop_app_le, reverse_snoc by lia. done.
    + rewrite Hev', reverse_singleton, (entriesOf_one _ q eq) by done.
      unfold notified. simpl. rewrite Hev, Hcb.
      destruct cb; [|done]. simpl. rewrite Hx'.
      by rewrite take_app_le, (take_S_r _ _ _ Hx) by lia.
  - assert (length kvs < n) as Hlt by lia.
    replace (length kvs + 1 - n) with 0 by lia.
    replace d with 0 in * by lia.
    exists false, (inserted k v 0 w). split; [done|].
    rewrite drop_0 in *. rewrite take_0 in *.
    split_and!; try done. by rewrite reverse_snoc.
Qed.

Lemma holdsNewest_run (n : nat) (cb : bool) (kvs2 kvs1 : list (K * V))
    (w : World) :
  1 ≤ n → holdsNewest n cb kvs1 w → NoDup (kvs1 ++ kvs2).*1 →
  ∃ w', run (addAll kvs2) w = Ok tt w' ∧ holdsNewest n cb (kvs1 ++ kvs2) w'.
Proof.
  intros Hn. revert kvs1 w.
  induction kvs2 as [|[k v] kvs2 IH]; intros kvs1 w Hw Hnd; simpl.
  - exists w. by rewrite app_nil_r.
  - rewrite cons_middle, app_assoc in Hnd |- *.
    destruct (holdsNewest_Add n cb kvs1 k v w Hn Hw) as (b & w1 & Hr & Hw1).
    { rewrite fmap_app in Hnd. apply NoDup_app in Hnd as [Hnd _].
      rewrite fmap_app in Hnd. apply NoDup_app in Hnd as (_ & Hdis & _).
      intros Hin. apply (Hdis k Hin). apply list_elem_of_here. }
    destruct (IH (kvs1 ++ [(k, v)]) w1 Hw1 Hnd) as (w' & Hr' & Hw').
    exists w'. split; [|done].
    unfold bind, Add, ret. by rewrite Hr.
Qed.

(** X11: least recently added first.  When pairs of distinct keys are
    added with [Add] to a new cache of size [size], the cache holds the last
    [size] pairs, the newest at the front of the list, and the callback was
    called exactly for the pairs before them, in the order they were added:
    the first pair added is the first evicted. *)
Theorem Add_distinct_evicts_oldest_first (size : Z) (dflt : Duration)
    (cb : bool) (c : LRU) (t : nat) (kvs : list (K * V)) :
  NewLRUWithExpire size dflt cb = inr c → NoDup kvs.*1 →
  ∃ w,
    run (addAll kvs) (startWorld c t) = Ok tt w ∧
    pairsOf w (evictList (cache w)) =
      reverse (drop (length kvs - Z.to_nat size) kvs) ∧
    evictions w =
      (if cb then take (length kvs - Z.to_nat size) kvs else []).
Proof.
  intros Hnew Hnd.
  assert (holdsNewest (Z.to_nat size) cb [] (startWorld c t) ∧
          1 ≤ Z.to_nat size) as [Hstart Hn].
  { pose proof (Inv_start c t size dflt cb Hnew) as Hinv.
    unfold NewLRUWithExpire in Hnew.
    destruct (Z.leb_spec size 0); [done|]. injection Hnew as <-.
    split; [|lia]. split_and!; try done.
    - simpl. lia.
    - by destruct cb. }
  destruct (holdsNewest_run (Z.to_nat size) cb kvs [] (startWorld c t) Hn
              Hstart Hnd) as (w & Hr & _ & _ & _ & Hpairs & Hev).
  by exists w.
Qed.

(** ** Construction *)

(** X1: the constructor fails, with its message, exactly when the size is
    not positive.  Otherwise it returns a cache with that size, default
    expiration and callback, which is empty: [Len] is 0, [Keys] is empty,
    [GetOldest] and [RemoveOldest] find nothing, [Purge] does nothing, and
    for every key [Get], [Peek], [Contains] and [Remove] miss; none of
    these calls changes the world. *)
Theorem new_cache_is_empty (size : Z) (dflt : Duration) (cb : bool)
    (t : nat) :
  match NewLRUWithExpire size dflt cb with
  | inl msg =>
      (size ≤ 0)%Z ∧ msg = "Must provide a positive size"%string ∧
      NewLRU size cb = inl msg
  | inr c =>
      (0 < size)%Z ∧ c_size c = size ∧ c_expire c = dflt ∧ onEvict c = cb ∧
      Len (startWorld c t) = Ok 0%Z (startWorld c t) ∧
      Keys (startWorld c t) = Ok [] (startWorld c t) ∧
      GetOldest (startWorld c t) = Ok (None, None, false) (startWorld c t) ∧
      RemoveOldest (startWorld c t) = Ok (None, None, false) (startWorld c t) ∧
      Purge (startWorld c t) = Ok tt (startWorld c t) ∧
      ∀ k,
        Get k (startWorld c t) = Ok (None, false) (startWorld c t) ∧
        Peek k (startWorld c t) = Ok (None, false) (startWorld c t) ∧
        Contains k (startWorld c t) = Ok false (startWorld c t) ∧
        Remove k (startWorld c t) = Ok false (startWorld c t)
  end.
Proof.
  destruct (NewLRUWithExpire size dflt cb) as [msg|c] eqn:Hnew.
  - unfold NewLRU. unfold NewLRUWithExpire in *.
    destruct (Z.leb_spec size 0); [|done]. by injection Hnew as <-.
  - pose proof (Inv_start c t size dflt cb Hnew) as Hinv.
    unfold NewLRUWithExpire in Hnew.
    destruct (Z.leb_spec size 0); [done|]. injection Hnew as <-.
    split_and!; try done; try (by apply Purge_empty_eq).
    intros k. split_and!.
    + apply Get_absent_eq, golookup_empty.
    + unfold Peek, bind, getCache. simpl. by rewrite golookup_empty.
    + unfold Contains, bind, getCache. simpl. by rewrite golookup_empty.
    + apply Remove_absent_eq, golookup_empty.
Qed.

End simplelru.

(** ** A concrete cache

    Keys and values are integers, the n-th reading of the clock is 10 n, and
    the cache has size 2, no default expiration and a callback. *)

Abbreviation ex_clock := (λ n : nat, (10 * Z.of_nat n)%Z).

Abbreviation ex_cache := (mkLRU (K:=Z) 2 [] ∅ 0 true).

Abbreviation ex_start := (startWorld (K:=Z) (V:=Z) ex_cache 0).

(** After [AddEx(1, 10, 5)] at clock reading 0: one entry, which expires
    at 5. *)
Abbreviation ex_one :=
  (mkWorld (K:=Z) (V:=Z)
           (mkLRU 2 [1%positive] (GoMap {[1%Z := 1%positive]} []) 0 true)
           {[1%positive := Entry 1%Z 10%Z (Some 5%Z)]}
           2%positive [] 1).

(** After [AddEx(1, 10, 5)] and [Add(2, 20)]: the back entry expires at 5,
    the front one never. *)
Abbreviation ex_two :=
  (mkWorld (K:=Z) (V:=Z)
           (mkLRU 2 [2%positive; 1%positive]
                  (GoMap {[1%Z := 1%positive; 2%Z := 2%positive]} []) 0 true)
           {[1%positive := Entry 1%Z 10%Z (Some 5%Z);
             2%positive := Entry 2%Z 20%Z None]}
           3%positive [] 1).

Lemma ex_new : NewLRUWithExpire 2 0 true = inr ex_cache.
Proof. reflexivity. Qed.

Lemma ex_one_run :
  run ex_clock [OpAddEx 1%Z 10%Z 5%Z] ex_start = Ok tt ex_one.
Proof. vm_compute. reflexivity. Qed.

Lemma ex_two_run :
  run ex_clock [OpAddEx 1%Z 10%Z 5%Z; OpAdd 2%Z 20%Z] ex_start = Ok tt ex_two.
Proof. vm_compute. reflexivity. Qed.

Lemma ex_start_reachable : reachable ex_clock ex_start.
Proof. by apply (reach_new ex_clock 2 0 true). Defined.

Lemma ex_one_reachable : reachable ex_clock ex_one.
Proof.
  change ex_one with (worldOf (exec ex_clock (OpAddEx 1%Z 10%Z 5%Z) ex_start)).
  apply reach_call, ex_start_reachable.
Defined.

Lemma ex_two_reachable : reachable ex_clock ex_two.
Proof.
  change ex_two with (worldOf (exec ex_clock (OpAdd 2%Z 20%Z) ex_one)).
  apply reach_call, ex_one_reachable.
Defined.

Lemma ex_one_Inv : Inv ex_one.
Proof. apply (reachable_Inv ex_clock), ex_one_reachable. Defined.

Lemma ex_two_Inv : Inv ex_two.
Proof. apply (reachable_Inv ex_clock), ex_two_reachable. Defined.

(** ** The properties at the concrete cache *)

Lemma GetOldest_expired_back_panics_witness :
  Inv ex_one ∧
  ∃ w', GetOldest ex_clock ex_one = Abort NilDereference w' ∧
        cache w' = cache ex_one ∧ evictions w' = evictions ex_one.
Proof.
  split; [exact ex_one_Inv|].
  destruct (GetOldest_expired_back_panics ex_clock ex_one 1%positive
              (Entry 1%Z 10%Z (Some 5%Z)) ex_one_Inv eq_refl eq_refl eq_refl)
    as (w' & Hr & Hc & _ & Hev).
  by exists w'.
Defined.

Lemma Put_sequence_within_capacity_witness :
  ∃ w, run ex_clock
         (take 3 [OpAdd 1%Z 10%Z; OpAddEx 2%Z 20%Z 5%Z; OpAdd 3%Z 30%Z])
         ex_start = Ok tt w ∧
       (lenOf w ≤ 2)%Z.
Proof.
  destruct (Put_sequence_within_capacity ex_clock 2 0 true ex_cache 0
              [OpAdd 1%Z 10%Z; OpAddEx 2%Z 20%Z 5%Z; OpAdd 3%Z 30%Z] 3)
    as (w & Hrun & _ & _ & Hlen & _).
  - reflexivity.
  - repeat constructor.
  - exists w. split; [exact Hrun|exact Hlen].
Defined.


(** A cache of size 1 whose keys may be NaN, and the world after
    [Add(NaN, 1)] and [Add(NaN, 2)]: the second call does not find the
    first entry, pushes a second element and evicts the first, whose key
    [delete] does not find. *)
Abbreviation nan_cache := (mkLRU (K:=fkey) 1 [] ∅ 0 true).

Abbreviation nan_start := (startWorld (K:=fkey) (V:=Z) nan_cache 0).

Abbreviation nan_two :=
  (mkWorld (K:=fkey) (V:=Z)
           (mkLRU 1 [2%positive]
                  (GoMap ∅ [(NaN, 1%positive); (NaN, 2%positive)]) 0 true)
           {[1%positive := Entry NaN 1%Z None;
             2%positive := Entry NaN 2%Z None]}
           3%positive [(NaN, 1%Z)] 0).

(** The claim C3 fails for a key that is unequal to itself.  After
    [Add(NaN, 1)] and [Add(NaN, 2)] on a new cache of size 1 the map holds
    two keys and the list one element; the key of that element is in the
    list, and no lookup finds it in the index. *)
Lemma index_outgrows_list_NaN :
  NewLRUWithExpire 1 0 true = inr nan_cache ∧
  run ex_clock [OpAdd NaN 1%Z; OpAdd NaN 2%Z] nan_start = Ok tt nan_two ∧
  reachable ex_clock nan_two ∧
  size (items (cache nan_two)) = 2 ∧
  length (evictList (cache nan_two)) = 1 ∧
  length (gomap_range (items (cache nan_two))) = 2 ∧
  (∃ p e, p ∈ evictList (cache nan_two) ∧ heap nan_two !! p = Some e ∧
          key e = NaN) ∧
  items (cache nan_two) !! NaN = None ∧
  ¬ ((∀ k, is_Some (items (cache nan_two) !! k) ↔
           ∃ p e, p ∈ evictList (cache nan_two) ∧
                  heap nan_two !! p = Some e ∧ key e = k) ∧
     size (items (cache nan_two)) = length (evictList (cache nan_two))).
Proof.
  split_and!; try reflexivity.
  - change nan_two
      with (worldOf (exec ex_clock (OpAdd NaN 2%Z)
                       (worldOf (exec ex_clock (OpAdd NaN 1%Z) nan_start)))).
    apply reach_call, reach_call. by apply (reach_new ex_clock 1 0 true).
  - exists 2%positive, (Entry NaN 2%Z None).
    split_and!; [apply list_elem_of_here|reflexivity|reflexivity].
  - intros [_ Hsize]. vm_compute in Hsize. discriminate.
Qed.

(** C4 (the code departs from it): [GetOldest] does not run to completion
    on every cache.  On a cache of size 2, after [AddEx(1, 10, 5)] at clock
    reading 0, the call of [GetOldest] at clock reading 10 finds the only
    entry expired and panics with a nil pointer dereference. *)
Theorem GetOldest_panics_after_expiry :
  NewLRUWithExpire 2 0 true = inr ex_cache ∧
  run ex_clock [OpAddEx 1%Z 10%Z 5%Z; OpGetOldest] ex_start =
    Abort NilDereference (tick ex_one).
Proof. split; reflexivity. Qed.

Lemma RemoveOldest_skips_expired_witness :
  Inv ex_two ∧
  ∃ kept gone res w',
    RemoveOldest ex_clock ex_two = Ok res w' ∧
    removedFromBack ex_two w' kept gone ∧
    (returnedFresh ex_clock ex_two gone res ∨
     returnedNothing ex_clock ex_two kept gone res).
Proof.
  split; [exact ex_two_Inv|].
  destruct (RemoveOldest_skips_expired ex_clock ex_two ex_two_Inv)
    as (kept & gone & res & w' & Hr & _ & Hrm & Hend).
  by exists kept, gone, res, w'.
Defined.

Lemma AddEx_new_key_witness :
  Inv ex_two ∧ items (cache ex_two) !! 3%Z = None ∧
  ∃ w', AddEx ex_clock 3%Z 30%Z 0%Z ex_two = Ok true w' ∧
        lenOf w' = lenOf ex_two.
Proof.
  split; [exact ex_two_Inv|]. split; [reflexivity|].
  destruct (AddEx_new_key ex_clock 3%Z 30%Z 0%Z ex_two ex_two_Inv eq_refl)
    as [Hevict _].
  destruct Hevict as (kept & q & eq & w' & Hr & _ & _ & _ & _ & _ & _ & Hlen).
  - vm_compute. reflexivity.
  - by exists w'.
Defined.

Lemma AddEx_existing_key_witness :
  Inv ex_two ∧ items (cache ex_two) !! 1%Z = Some 1%positive ∧
  ∃ w', AddEx ex_clock 1%Z 11%Z 7%Z ex_two = Ok false w' ∧
        evictList (cache w') = [1%positive; 2%positive] ∧
        evictions w' = [].
Proof.
  split; [exact ex_two_Inv|]. split; [reflexivity|].
  destruct (AddEx_existing_key ex_clock 1%Z 11%Z 7%Z 1%positive ex_two
              ex_two_Inv eq_refl)
    as (old & w' & _ & Hr & _ & Hl & _ & _ & Hev & _).
  by exists w'.
Defined.

Lemma Get_expired_miss_witness :
  Inv ex_two ∧
  ∃ w', Get ex_clock 1%Z ex_two = Ok (None, false) w' ∧
        cache w' = cache ex_two ∧ evictions w' = evictions ex_two.
Proof.
  split; [exact ex_two_Inv|].
  destruct (Get_expired_miss ex_clock 1%Z 1%positive
              (Entry 1%Z 10%Z (Some 5%Z)) ex_two ex_two_Inv eq_refl eq_refl
              eq_refl)
    as (w' & Hr & Hc & _ & Hev & _).
  by exists w'.
Defined.

Lemma Resize_nonnegative_witness :
  Inv ex_two ∧ (0 ≤ 1 < 2 ^ 63)%Z ∧ (lenOf ex_two < 2 ^ 63)%Z ∧
  ∃ w', Resize 1 ex_two = Ok 1%Z w' ∧ lenOf w' = 1%Z.
Proof.
  assert (0 ≤ 1 < 2 ^ 63)%Z as Hsize by lia.
  assert (lenOf ex_two < 2 ^ 63)%Z as Hlen by (vm_compute; reflexivity).
  split; [exact ex_two_Inv|]. split; [exact Hsize|]. split; [exact Hlen|].
  destruct (Resize_nonnegative 1 ex_two ex_two_Inv Hsize Hlen)
    as (w1 & Hr & _ & _ & Hshrink & _).
  exists (withSize 1 w1). split; [exact Hr|].
  apply Hshrink. vm_compute. reflexivity.
Defined.

(** The claim C9 fails for a negative size.  On the cache with one entry,
    [Resize(-1)] returns 2, although the list held one element and the
    callback is called once, and the list ends with length 0, not -1. *)
Lemma Resize_negative_overcounts :
  Inv ex_one ∧
  ∃ r w',
    Resize (-1) ex_one = Ok r w' ∧
    (-1 < lenOf ex_one)%Z ∧
    lenOf w' ≠ (-1)%Z ∧
    (lenOf ex_one - lenOf w')%Z ≠ r ∧
    length (evictions w') = 1 ∧ length (evictions ex_one) = 0 ∧ r = 2%Z.
Proof.
  split; [exact ex_one_Inv|].
  eexists _, _. split; [vm_compute; reflexivity|].
  vm_compute. split_and!; try done.
Qed.

Lemma Remove_absent_unchanged_witness :
  items (cache ex_two) !! 7%Z = None ∧ Remove 7%Z ex_two = Ok false ex_two.
Proof.
  split; [reflexivity|].
  apply (Remove_absent_unchanged 7%Z ex_two). reflexivity.
Defined.

(** ** The further properties at concrete caches *)

(** The cache of size 2 shrunk to size 0 before anything was added. *)
Abbreviation ex_zero :=
  (mkWorld (K:=Z) (V:=Z) (mkLRU 0 [] ∅ 0 true) ∅ 1%positive [] 0).

(** After [Add(1, 10)] and [Add(2, 20)]: two entries without deadline. *)
Abbreviation ex_plain :=
  (mkWorld (K:=Z) (V:=Z)
           (mkLRU 2 [2%positive; 1%positive]
                  (GoMap {[1%Z := 1%positive; 2%Z := 2%positive]} []) 0 true)
           {[1%positive := Entry 1%Z 10%Z None;
             2%positive := Entry 2%Z 20%Z None]}
           3%positive [] 0).

Lemma ex_zero_Inv : Inv ex_zero.
Proof.
  apply (reachable_Inv ex_clock).
  change ex_zero with (worldOf (exec ex_clock (OpResize 0) ex_start)).
  apply reach_call, ex_start_reachable.
Defined.

Lemma ex_plain_Inv : Inv ex_plain.
Proof.
  apply (reachable_Inv ex_clock).
  change ex_plain
    with (worldOf (exec ex_clock (OpAdd 2%Z 20%Z)
                     (worldOf (exec ex_clock (OpAdd 1%Z 10%Z) ex_start)))).
  apply reach_call, reach_call, ex_start_reachable.
Defined.

Lemma reachable_keys_distinct_witness :
  reachable ex_clock ex_two ∧
  NoDup (key <$> entriesOf ex_two (evictList (cache ex_two))).
Proof.
  split; [exact ex_two_reachable|].
  destruct (reachable_keys_distinct ex_clock ex_two ex_two_reachable)
    as (_ & _ & Hnd).
  apply Hnd. intros k _. reflexivity.
Defined.

Lemma Get_hit_promotes_witness :
  Inv ex_two ∧
  ∃ w', Get ex_clock 2%Z ex_two = Ok (Some 20%Z, true) w' ∧
        items (cache w') = items (cache ex_two).
Proof.
  split; [exact ex_two_Inv|].
  destruct (Get_hit_promotes ex_clock 2%Z 2%positive (Entry 2%Z 20%Z None)
              ex_two ex_two_Inv eq_refl eq_refl eq_refl)
    as (w' & Hr & _ & Hit & _).
  by exists w'.
Defined.

Lemma Remove_present_witness :
  Inv ex_two ∧
  ∃ w', Remove 1%Z ex_two = Ok true w' ∧
        Get ex_clock 1%Z w' = Ok (None, false) w'.
Proof.
  split; [exact ex_two_Inv|].
  destruct (Remove_present ex_clock 1%Z 1%positive ex_two ex_two_Inv eq_refl)
    as (e & w' & _ & _ & Hr & _ & _ & _ & _ & Hget & _).
  by exists w'.
Defined.

Lemma Peek_Contains_agree_witness :
  Inv ex_two ∧
  ∃ ov b w', Peek ex_clock 2%Z ex_two = Ok (ov, b) w' ∧
             Contains ex_clock 2%Z ex_two = Ok b w'.
Proof.
  split; [exact ex_two_Inv|].
  destruct (Peek_Contains_agree ex_clock 2%Z ex_two ex_two_Inv)
    as (ov & b & w' & Hp & Hc & _).
  by exists ov, b, w'.
Defined.



Lemma AddEx_other_keys_witness :
  Inv ex_two ∧
  items (cache ex_two) !! 2%Z = Some 2%positive ∧
  heap (worldOf (AddEx ex_clock 3%Z 30%Z 0%Z ex_two)) !! 2%positive =
    heap ex_two !! 2%positive.
Proof.
  split; [exact ex_two_Inv|].
  apply (AddEx_other_keys ex_clock 3%Z 2%Z 30%Z 0%Z true 2%positive ex_two
           (worldOf (AddEx ex_clock 3%Z 30%Z 0%Z ex_two))).
  - exact ex_two_Inv.
  - vm_compute. reflexivity.
  - discriminate.
  - vm_compute. reflexivity.
Defined.

Lemma Get_hit_survives_insertion_witness :
  Inv ex_two ∧ (2 ≤ c_size (cache ex_two))%Z ∧
  ∃ w1 b w2, Get ex_clock 2%Z ex_two = Ok (Some 20%Z, true) w1 ∧
             AddEx ex_clock 3%Z 30%Z 0%Z w1 = Ok b w2 ∧
             items (cache w2) !! 2%Z = Some 2%positive.
Proof.
  assert (2 ≤ c_size (cache ex_two))%Z as Hsize by (vm_compute; discriminate).
  split; [exact ex_two_Inv|]. split; [exact Hsize|].
  exact (Get_hit_survives_insertion ex_clock 2%Z 3%Z 30%Z 0%Z 2%positive
           (Entry 2%Z 20%Z None) ex_two ex_two_Inv eq_refl eq_refl eq_refl
           Hsize eq_refl).
Defined.


Lemma Resize_negative_empties_witness :
  Inv ex_one ∧ (-1 < 0)%Z ∧ (lenOf ex_one - -1 < 2 ^ 63)%Z ∧
  ∃ w', Resize (-1) ex_one = Ok 2%Z w'.
Proof.
  assert (-1 < 0)%Z as Hneg by lia.
  assert (lenOf ex_one - -1 < 2 ^ 63)%Z as Hbound by (vm_compute; reflexivity).
  split; [exact ex_one_Inv|]. split; [exact Hneg|]. split; [exact Hbound|].
  destruct (Resize_negative_empties (-1) ex_one ex_one_Inv Hneg Hbound)
    as (w1 & Hr & _).
  by exists (withSize (-1) w1).
Defined.


Lemma capacity_kept_by_all_operations_witness :
  (lenOf (after ex_clock
            [OpAdd 1%Z 10%Z; OpAdd 2%Z 20%Z; OpAdd 3%Z 30%Z; OpResize 1;
             OpGetOldest; OpAdd 4%Z 40%Z] ex_start)
   ≤ c_size (cache (after ex_clock
            [OpAdd 1%Z 10%Z; OpAdd 2%Z 20%Z; OpAdd 3%Z 30%Z; OpResize 1;
             OpGetOldest; OpAdd 4%Z 40%Z] ex_start)))%Z.
Proof.
  apply (capacity_kept_by_all_operations ex_clock 2 0 true ex_cache 0).
  - reflexivity.
  - vm_compute. reflexivity.
  - repeat constructor.
Defined.

Lemma Keys_oldest_first_witness :
  Inv ex_two ∧
  ∃ ks w', Keys ex_clock ex_two = Ok ks w' ∧ NoDup ks.
Proof.
  split; [exact ex_two_Inv|].
  destruct (Keys_oldest_first ex_clock ex_two ex_two_Inv)
    as (ks & w' & Hr & _ & _ & _ & Hnd & _).
  exists ks, w'. split; [exact Hr|]. apply Hnd. intros k _. reflexivity.
Defined.

Lemma Keys_without_deadlines_witness :
  Inv ex_plain ∧ Keys ex_clock ex_plain = Ok [1%Z; 2%Z] ex_plain.
Proof.
  split; [exact ex_plain_Inv|].
  apply (Keys_without_deadlines ex_clock ex_plain ex_plain_Inv).
  intros p e Hin Hp.
  apply elem_of_cons in Hin as [->|Hin].
  - vm_compute in Hp. by injection Hp as <-.
  - apply list_elem_of_singleton in Hin as ->.
    vm_compute in Hp. by injection Hp as <-.
Defined.

Lemma Add_distinct_evicts_oldest_first_witness :
  ∃ w,
    run ex_clock (addAll [(1%Z, 10%Z); (2%Z, 20%Z); (3%Z, 30%Z)]) ex_start
      = Ok tt w ∧
    pairsOf w (evictList (cache w)) = [(3%Z, 30%Z); (2%Z, 20%Z)] ∧
    evictions w = [(1%Z, 10%Z)].
Proof.
  apply (Add_distinct_evicts_oldest_first ex_clock 2 0 true ex_cache 0
           [(1%Z, 10%Z); (2%Z, 20%Z); (3%Z, 30%Z)]).
  - reflexivity.
  - apply (bool_decide_unpack _). vm_compute. exact I.
Defined.
